(** * PodFlow playback engine: the [useAudioPlayer] hook

    A shallow embedding of [src/hooks/useAudioPlayer.ts] (with the records of
    [src/types]) and the properties of its queue, pointer, transport and
    progress-debounce logic.

    Modelling conventions.
    - A JavaScript [number] is an IEEE 754 binary64 value: [spec_float] with
      precision 53 and maximal exponent 1024.  Array indices and
      [currentQueueIndex] are integers and are kept in [Z] ([-1] is a legal
      value, and the code can push the pointer below it).
    - A [string] is a [string]; an array is a [list].  The own properties
      of a [Record<string, number>] are a [gmap string number]; a read
      [o[key]] goes through [readProperty], which also finds what the object
      inherits from [Object.prototype].
    - [setState(prev => ...)] queues an updater.  Every callback below takes
      the rendered snapshot it closed over ([state]) apart from the value the
      queued updaters are applied to ([prev]).  A callback made in the
      render of the current state has [state = prev]; a memoised callback
      keeps the snapshot of the render that made it for as long as its
      dependency list compares equal.
    - [queue[i]] outside the array is [undefined]; the model returns [None]
      there and an operation that would hand [undefined] to [playEpisode]
      has no result ([None]). *)

From Stdlib Require Import ZArith String List Bool Lia.
From Stdlib Require Import SpecFloat.
From stdpp Require Import base option list gmap strings.

Local Open Scope Z_scope.

(** ** JavaScript numbers *)

Module JS.

Abbreviation number := spec_float.

Definition prec : Z := 53.
Definition emax : Z := 1024.

(** An integer literal such as [0], [30] or [2000]. *)
Definition lit (z : Z) : number := binary_normalize prec emax z 0 false.

Definition NaN : number := S754_nan.

(** [x + y]. *)
Definition add (x y : number) : number := SFadd prec emax x y.

(** [x <= y]: false as soon as one side is [NaN]. *)
Definition le (x y : number) : bool := SFleb x y.

(** [ToBoolean] on a number: [+0], [-0] and [NaN] are falsy. *)
Definition truthy (x : number) : bool :=
  match x with
  | S754_zero _ | S754_nan => false
  | _ => true
  end.

(** [Math.max(x, y)]: [NaN] if either is [NaN]; [+0] is larger than [-0]. *)
Definition Math_max (x y : number) : number :=
  match SFcompare x y with
  | None => S754_nan
  | Some Lt => y
  | Some Gt => x
  | Some Eq => match x with S754_zero true => y | _ => x end
  end.

(** [Math.min(x, y)]: [NaN] if either is [NaN]; [-0] is smaller than [+0]. *)
Definition Math_min (x y : number) : number :=
  match SFcompare x y with
  | None => S754_nan
  | Some Lt => x
  | Some Gt => y
  | Some Eq => match x with S754_zero false => y | _ => x end
  end.

(** [a[i]]: [undefined] ([None]) for a negative or too large index. *)
Definition get {A : Type} (a : list A) (i : Z) : option A :=
  if i <? 0 then None else a !! Z.to_nat i.

(** [a.length]. *)
Definition len {A : Type} (a : list A) : Z := Z.of_nat (length a).

(** [a.findIndex(p)]: the first index whose element satisfies [p], or -1. *)
Fixpoint findIndex_from {A : Type} (p : A -> bool) (a : list A) (i : Z) : Z :=
  match a with
  | [] => -1
  | x :: a' => if p x then i else findIndex_from p a' (i + 1)
  end.

Definition findIndex {A : Type} (p : A -> bool) (a : list A) : Z :=
  findIndex_from p a 0.

(** [a.filter((x, i) => p(x, i))]. *)
Fixpoint filter_from {A : Type} (p : A -> Z -> bool) (a : list A) (i : Z) : list A :=
  match a with
  | [] => []
  | x :: a' =>
      if p x i then x :: filter_from p a' (i + 1) else filter_from p a' (i + 1)
  end.

Definition filter {A : Type} (p : A -> Z -> bool) (a : list A) : list A :=
  filter_from p a 0.

(** [s.includes(sub)]. *)
Fixpoint includes (s sub : string) : bool :=
  if String.prefix sub s then true
  else match s with
       | EmptyString => false
       | String _ s' => includes s' sub
       end.

End JS.

(** ** The records of [src/types] *)

Record Episode := {
  id : string;
  title : string;
  description : string;
  pubDate : Z;                      (* a [Date], as milliseconds since the epoch *)
  audioUrl : string;
  podcastTitle : option string;
  podcastImageUrl : option string
}.

Record AudioPlayerState := {
  currentEpisode : option Episode;
  isPlaying : bool;
  playbackSpeed : JS.number;
  volume : JS.number;
  currentTime : JS.number;
  duration : JS.number;
  queue : list Episode;
  currentQueueIndex : Z
}.

(** The state [useState] starts from. *)
Definition initialState : AudioPlayerState := {|
  currentEpisode := None;
  isPlaying := false;
  playbackSpeed := JS.lit 1;
  volume := JS.lit 1;
  currentTime := JS.lit 0;
  duration := JS.lit 0;
  queue := [];
  currentQueueIndex := -1
|}.

(** ** Queue and pointer operations (the [setState] updaters) *)

(** [playEpisode]: the updater of lines 61-80.  [{ ...episode }] copies the
    fields, so [episodeWithMeta] is the record [episode] itself. *)
Definition playEpisode (episode : Episode) (prev : AudioPlayerState) : AudioPlayerState :=
  let episodeWithMeta := episode in
  let existingQueueIndex :=
    JS.findIndex (fun q => String.eqb (id q) (id episode)) (queue prev) in
  if negb (existingQueueIndex =? -1) then
    {| currentEpisode := Some episodeWithMeta;
       isPlaying := true;
       playbackSpeed := playbackSpeed prev;
       volume := volume prev;
       currentTime := currentTime prev;
       duration := duration prev;
       queue := queue prev;
       currentQueueIndex := existingQueueIndex |}
  else
    let newQueueIndex := JS.len (queue prev) in
    {| currentEpisode := Some episodeWithMeta;
       isPlaying := true;
       playbackSpeed := playbackSpeed prev;
       volume := volume prev;
       currentTime := currentTime prev;
       duration := duration prev;
       queue := queue prev ++ [episodeWithMeta];
       currentQueueIndex := newQueueIndex |}.

Definition addToQueue (episode : Episode) (prev : AudioPlayerState) : AudioPlayerState :=
  {| currentEpisode := currentEpisode prev;
     isPlaying := isPlaying prev;
     playbackSpeed := playbackSpeed prev;
     volume := volume prev;
     currentTime := currentTime prev;
     duration := duration prev;
     queue := queue prev ++ [episode];
     currentQueueIndex := currentQueueIndex prev |}.

Definition removeFromQueue (index : Z) (prev : AudioPlayerState) : AudioPlayerState :=
  let newQueue := JS.filter (fun _ i => negb (i =? index)) (queue prev) in
  let '(newCurrentQueueIndex, newCurrentEpisode, newIsPlaying) :=
    if index <? currentQueueIndex prev then
      (currentQueueIndex prev - 1, currentEpisode prev, isPlaying prev)
    else if index =? currentQueueIndex prev then
      (-1, None, false)
    else
      (currentQueueIndex prev, currentEpisode prev, isPlaying prev) in
  {| currentEpisode := newCurrentEpisode;
     isPlaying := newIsPlaying;
     playbackSpeed := playbackSpeed prev;
     volume := volume prev;
     currentTime := currentTime prev;
     duration := duration prev;
     queue := newQueue;
     currentQueueIndex := newCurrentQueueIndex |}.

(** [playNext] and [playPrevious] read the rendered [state] and call
    [playEpisode], whose updater runs on [prev]. *)
Definition playNext (state prev : AudioPlayerState) : option AudioPlayerState :=
  if currentQueueIndex state <? JS.len (queue state) - 1 then
    let nextIndex := currentQueueIndex state + 1 in
    match JS.get (queue state) nextIndex with
    | Some nextEpisode => Some (playEpisode nextEpisode prev)
    | None => None
    end
  else Some prev.

Definition playPrevious (state prev : AudioPlayerState) : option AudioPlayerState :=
  if currentQueueIndex state >? 0 then
    let prevIndex := currentQueueIndex state - 1 in
    match JS.get (queue state) prevIndex with
    | Some prevEpisode => Some (playEpisode prevEpisode prev)
    | None => None
    end
  else Some prev.

Definition togglePlayPause (prev : AudioPlayerState) : AudioPlayerState :=
  {| currentEpisode := currentEpisode prev;
     isPlaying := negb (isPlaying prev);
     playbackSpeed := playbackSpeed prev;
     volume := volume prev;
     currentTime := currentTime prev;
     duration := duration prev;
     queue := queue prev;
     currentQueueIndex := currentQueueIndex prev |}.

Definition clearQueue (prev : AudioPlayerState) : AudioPlayerState :=
  {| currentEpisode := None;
     isPlaying := false;
     playbackSpeed := playbackSpeed prev;
     volume := volume prev;
     currentTime := currentTime prev;
     duration := duration prev;
     queue := [];
     currentQueueIndex := -1 |}.

(** The updater [prev => ({ ...prev, isPlaying: b })], used by [handleEnded],
    by the native play/pause listeners and by every error handler. *)
Definition setIsPlaying (b : bool) (prev : AudioPlayerState) : AudioPlayerState :=
  {| currentEpisode := currentEpisode prev;
     isPlaying := b;
     playbackSpeed := playbackSpeed prev;
     volume := volume prev;
     currentTime := currentTime prev;
     duration := duration prev;
     queue := queue prev;
     currentQueueIndex := currentQueueIndex prev |}.

(** [handleEnded]: queue [isPlaying: false], then auto-advance.  The
    [playNext] it calls is the one of the render that made the handler, and
    that one reads the queue of that same render ([state.queue] is among its
    dependencies), so one snapshot serves both reads. *)
Definition handleEnded (state prev : AudioPlayerState) : option AudioPlayerState :=
  let prev' := setIsPlaying false prev in
  if currentQueueIndex state <? JS.len (queue state) - 1 then
    playNext state prev'
  else Some prev'.

(** The dependency list of [handleEnded] (line 55), and the snapshot the
    handler holds after a render of [s] when it held [held] before:
    [useCallback] keeps the earlier handler unless a dependency changed. *)
Definition handleEnded_deps (state : AudioPlayerState) : Z * Z :=
  (currentQueueIndex state, JS.len (queue state)).

Definition handleEnded_snapshot (held s : AudioPlayerState) : AudioPlayerState :=
  if (fst (handleEnded_deps held) =? fst (handleEnded_deps s)) &&
     (snd (handleEnded_deps held) =? snd (handleEnded_deps s))
  then held else s.

(** ** The media element and the transport operations *)

(** The fields of the [HTMLAudioElement] held by [audioRef] that the hook
    reads or writes.  The element stores a value assigned to it as it is. *)
Module Audio.

Record t := {
  src : string;
  currentTime : JS.number;
  duration : JS.number;
  readyState : Z;
  paused : bool
}.

Definition set_currentTime (v : JS.number) (a : t) : t :=
  {| src := src a; currentTime := v; duration := duration a;
     readyState := readyState a; paused := paused a |}.

(** [audio.pause()]. *)
Definition pause (a : t) : t :=
  {| src := src a; currentTime := currentTime a; duration := duration a;
     readyState := readyState a; paused := true |}.

End Audio.

(** What the hook owns: the element reference and the value held by
    [useState] (the [prev] of the next updater). *)
Record Hook := {
  audioRef : option Audio.t;
  store : AudioPlayerState
}.

Definition setCurrentTime (time : JS.number) (prev : AudioPlayerState) : AudioPlayerState :=
  {| currentEpisode := currentEpisode prev;
     isPlaying := isPlaying prev;
     playbackSpeed := playbackSpeed prev;
     volume := volume prev;
     currentTime := time;
     duration := duration prev;
     queue := queue prev;
     currentQueueIndex := currentQueueIndex prev |}.

Definition setDuration (d : JS.number) (prev : AudioPlayerState) : AudioPlayerState :=
  {| currentEpisode := currentEpisode prev;
     isPlaying := isPlaying prev;
     playbackSpeed := playbackSpeed prev;
     volume := volume prev;
     currentTime := currentTime prev;
     duration := d;
     queue := queue prev;
     currentQueueIndex := currentQueueIndex prev |}.

Definition seek (time : JS.number) (h : Hook) : Hook :=
  match audioRef h with
  | Some audio =>
      {| audioRef := Some (Audio.set_currentTime time audio);
         store := setCurrentTime time (store h) |}
  | None => h
  end.

(** [skipTime] reads [state.duration] from the rendered snapshot and the
    position from the element. *)
Definition skipTime (amount : JS.number) (state : AudioPlayerState) (h : Hook) : Hook :=
  match audioRef h with
  | Some audio =>
      if JS.truthy (duration state) then
        let newTime :=
          JS.Math_max (JS.lit 0)
            (JS.Math_min (duration state) (JS.add (Audio.currentTime audio) amount)) in
        seek newTime h
      else h
  | None => h
  end.

(** The [onLoadedMetadata] handler of the hook (lines 43-47). *)
Definition handleLoadedMetadata (h : Hook) : Hook :=
  match audioRef h with
  | Some audio =>
      {| audioRef := audioRef h; store := setDuration (Audio.duration audio) (store h) |}
  | None => h
  end.

(** ** Play requests *)

(** [audio.play()] returns a promise which the platform settles later; the
    hook attaches a [.catch] handler, an updater of the state. *)
Inductive Settlement := Fulfilled | Rejected.

Record PlayRequest := { onRejected : AudioPlayerState -> AudioPlayerState }.

Definition settle (r : Settlement) (req : PlayRequest) (prev : AudioPlayerState)
  : AudioPlayerState :=
  match r with
  | Fulfilled => prev
  | Rejected => onRejected req prev
  end.

(** What a read [o[key]] of a plain object with number-valued own
    properties returns: the own number; failing that, for one of the names
    [Object.prototype] defines, the member inherited under that name (a
    function, or the prototype itself for ["__proto__"]); failing that,
    [undefined]. *)
Inductive Value :=
| Num (n : JS.number)
| Inherited (key : string)
| Undefined.

Definition Object_prototype : list string :=
  ["constructor"; "hasOwnProperty"; "isPrototypeOf"; "propertyIsEnumerable";
   "toLocaleString"; "toString"; "valueOf"; "__proto__";
   "__defineGetter__"; "__defineSetter__"; "__lookupGetter__"; "__lookupSetter__"]%string.

Definition readProperty (o : gmap string JS.number) (key : string) : Value :=
  match o !! key with
  | Some n => Num n
  | None =>
      if existsb (String.eqb key) Object_prototype then Inherited key else Undefined
  end.

(** [v || 0]: a function or an object is truthy. *)
Definition orZero (v : Value) : Value :=
  match v with
  | Num n => if JS.truthy n then Num n else Num (JS.lit 0)
  | Inherited key => Inherited key
  | Undefined => Num (JS.lit 0)
  end.

(** [ToNumber], which an assignment to a [double] attribute such as
    [currentTime] applies: a function or a plain object gives [NaN]. *)
Definition ToNumber (v : Value) : JS.number :=
  match v with
  | Num n => n
  | Inherited _ | Undefined => JS.NaN
  end.

(** [episodeProgress[episode.id] || 0] (line 89). *)
Definition savedTime (episodeProgress : gmap string JS.number) (episode : Episode)
  : Value :=
  orZero (readProperty episodeProgress (id episode)).

(** The one-shot [loadedmetadata] listener registered by [playEpisode]
    (lines 88-97): assign the saved position and ask to play.  The element
    is left holding the number assigned; what a browser's element then does
    with a position it cannot seek to is outside this model. *)
Definition bind_handleLoadedMetadata (episodeProgress : gmap string JS.number)
    (episode : Episode) (audio : Audio.t) : Audio.t * PlayRequest :=
  (Audio.set_currentTime (ToNumber (savedTime episodeProgress episode)) audio,
   {| onRejected := setIsPlaying false |}).

(** The one-shot [error] listener registered by [playEpisode]. *)
Definition bind_handleError (prev : AudioPlayerState) : AudioPlayerState :=
  setIsPlaying false prev.

(** The effect on [[state.isPlaying, state.currentEpisode]] (lines 208-221). *)
Definition reconcile (state : AudioPlayerState) (audioRef : option Audio.t)
  : option Audio.t * option PlayRequest :=
  match audioRef with
  | Some audio =>
      match isPlaying state, currentEpisode state with
      | true, Some ep =>
          if JS.includes (Audio.src audio) (audioUrl ep) && (Audio.readyState audio >=? 2)
          then (Some audio, Some {| onRejected := setIsPlaying false |})
          else (Some audio, None)
      | true, None => (Some audio, None)
      | false, _ => (Some (Audio.pause audio), None)
      end
  | None => (None, None)
  end.

(** ** Progress persistence: timers and the debounce *)

(** The platform's timers.  A pending timeout holds its due time and the
    closure [() => onTimeProgress(episodeId, time)] given to [setTimeout],
    kept as its two captured values. *)
Record Timeout := {
  due : Z;
  episodeId : string;
  time : JS.number
}.

Record Timers := {
  pending : gmap nat Timeout;
  fresh : nat                        (* the next handle [setTimeout] returns *)
}.

Definition setTimeout (now delay : Z) (episodeId : string) (time : JS.number)
    (T : Timers) : nat * Timers :=
  (fresh T,
   {| pending := <[fresh T := {| due := now + delay; episodeId := episodeId; time := time |}]>
                   (pending T);
      fresh := S (fresh T) |}).

(** [clearTimeout(h)]; [clearTimeout(undefined)] does nothing. *)
Definition clearTimeout (h : option nat) (T : Timers) : Timers :=
  match h with
  | Some k => {| pending := delete k (pending T); fresh := fresh T |}
  | None => T
  end.

(** What an observer of the debounce sees, newest first: a tick that
    scheduled a write (with the handle it got) and a call of
    [onTimeProgress] (with the handle of the timeout that made it). *)
Inductive Observed :=
| Ticked (at_ms : Z) (handle : nat) (episodeId : string) (time : JS.number)
| Wrote (at_ms : Z) (handle : nat) (episodeId : string) (time : JS.number).

Record Debounce := {
  now : Z;                                   (* the clock, in milliseconds *)
  timers : Timers;
  debouncedUpdateTimeRef : option nat;
  history : list Observed
}.

Definition debounce0 : Debounce :=
  {| now := 0;
     timers := {| pending := ∅; fresh := 0 |};
     debouncedUpdateTimeRef := None;
     history := [] |}.

Section Progress.

(** Whether the caller of the hook passed [onTimeProgress]. *)
Variable onTimeProgress_given : bool.

(** [updateTimeProgress] (lines 25-32). *)
Definition updateTimeProgress (episodeId : string) (time : JS.number) (w : Debounce)
  : Debounce :=
  if String.eqb episodeId "" || negb onTimeProgress_given then w
  else
    let T := clearTimeout (debouncedUpdateTimeRef w) (timers w) in
    let '(h, T') := setTimeout (now w) 2000 episodeId time T in
    {| now := now w;
       timers := T';
       debouncedUpdateTimeRef := Some h;
       history := Ticked (now w) h episodeId time :: history w |}.

(** [handleTimeUpdate] (lines 35-41). *)
Definition handleTimeUpdate (state : AudioPlayerState) (h : Hook) (w : Debounce)
  : Hook * Debounce :=
  match audioRef h, currentEpisode state with
  | Some audio, Some ep =>
      let time := Audio.currentTime audio in
      ({| audioRef := audioRef h; store := setCurrentTime time (store h) |},
       updateTimeProgress (id ep) time w)
  | _, _ => (h, w)
  end.

(** The events that move the debounce: a [timeupdate] of the element
    (handled by [handleTimeUpdate] in the snapshot and hook of that moment),
    time passing, and the platform running a timeout that is due.  Time
    may pass beyond a due time before the timeout runs, never the reverse. *)
Inductive Event :=
| TimeUpdate (state : AudioPlayerState) (h : Hook)
| Elapse (ms : Z)
| Expire (handle : nat).

Definition step (ev : Event) (w : Debounce) : option Debounce :=
  match ev with
  | TimeUpdate state h => Some (snd (handleTimeUpdate state h w))
  | Elapse ms =>
      if 0 <=? ms then
        Some {| now := now w + ms; timers := timers w;
                debouncedUpdateTimeRef := debouncedUpdateTimeRef w;
                history := history w |}
      else None
  | Expire k =>
      match pending (timers w) !! k with
      | Some t =>
          if due t <=? now w then
            Some {| now := now w;
                    timers := {| pending := delete k (pending (timers w));
                                 fresh := fresh (timers w) |};
                    debouncedUpdateTimeRef := debouncedUpdateTimeRef w;
                    history := Wrote (now w) k (episodeId t) (time t) :: history w |}
          else None
      | None => None
      end
  end.

Fixpoint run (evs : list Event) (w : Debounce) : option Debounce :=
  match evs with
  | [] => Some w
  | ev :: evs' =>
      match step ev w with
      | Some w' => run evs' w'
      | None => None
      end
  end.

End Progress.

(** A [timeupdate] for an active episode: an element is mounted and a
    current episode with a non-empty id is selected. *)
Definition active_tick (ev : Event) : Prop :=
  match ev with
  | TimeUpdate state h =>
      is_Some (audioRef h) /\
      exists ep, currentEpisode state = Some ep /\ id ep <> ""%string
  | _ => True
  end.

(** ** Sequences of engine operations *)

Inductive Op :=
| PlayEpisode (episode : Episode)
| AddToQueue (episode : Episode)
| RemoveFromQueue (index : Z)
| PlayNext
| PlayPrevious
| TogglePlayPause
| ClearQueue.

(** One operation, called from a handler of the current render. *)
Definition dispatch (op : Op) (s : AudioPlayerState) : option AudioPlayerState :=
  match op with
  | PlayEpisode e => Some (playEpisode e s)
  | AddToQueue e => Some (addToQueue e s)
  | RemoveFromQueue i => Some (removeFromQueue i s)
  | PlayNext => playNext s s
  | PlayPrevious => playPrevious s s
  | TogglePlayPause => Some (togglePlayPause s)
  | ClearQueue => Some (clearQueue s)
  end.

Inductive reachable : AudioPlayerState -> Prop :=
| reachable_init : reachable initialState
| reachable_step op s s' :
    reachable s -> dispatch op s = Some s' -> reachable s'.

(** The same, when [removeFromQueue] is never given a negative index. *)
Definition nonneg_index (op : Op) : Prop :=
  match op with
  | RemoveFromQueue i => 0 <= i
  | _ => True
  end.

Inductive reachable_nonneg : AudioPlayerState -> Prop :=
| reachable_nonneg_init : reachable_nonneg initialState
| reachable_nonneg_step op s s' :
    reachable_nonneg s -> nonneg_index op -> dispatch op s = Some s' ->
    reachable_nonneg s'.

(** The queue/pointer invariant of the data model. *)
Definition queue_invariant (s : AudioPlayerState) : Prop :=
  (forall e, currentEpisode s = Some e ->
     exists q, JS.get (queue s) (currentQueueIndex s) = Some q /\ id q = id e) /\
  (queue s = [] -> currentEpisode s = None /\ currentQueueIndex s = -1).

(** ** Sample data, after the fixtures of [useAudioPlayer.test.ts] *)

Definition mockEpisode (i t : string) : Episode :=
  {| id := i;
     title := t;
     description := "Test description";
     pubDate := 1672531200000;
     audioUrl := "https://example.com/audio.mp3";
     podcastTitle := Some "Test Podcast"%string;
     podcastImageUrl := Some "https://example.com/image.jpg"%string |}.

Definition episode1 : Episode := mockEpisode "episode1" "Test Episode".
Definition episode2 : Episode := mockEpisode "episode2" "Episode 2".
Definition episode3 : Episode := mockEpisode "episode3" "Episode 3".

(** [episode1] once more, as a later fetch of the feed returns it: the id
    is the same, the descriptive fields are not. *)
Definition episode1' : Episode :=
  {| id := "episode1";
     title := "Test Episode (remastered)";
     description := "Updated description";
     pubDate := 1672531200000;
     audioUrl := "https://example.com/audio.mp3";
     podcastTitle := Some "Test Podcast, season 2"%string;
     podcastImageUrl := None |}.

(** The test of [findIndex] in [playEpisode]. *)
Definition same_id (e : Episode) (q : Episode) : bool := String.eqb (id q) (id e).

(** The queue [[episode1; episode2; episode3]] with [episode1] playing. *)
Definition three_queued : AudioPlayerState :=
  playEpisode episode1
    (addToQueue episode3 (addToQueue episode2 (addToQueue episode1 initialState))).

(** The queue [[episode1; episode2]] with [episode2] playing, as reached by
    two [addToQueue] calls and one [playEpisode]. *)
Definition playing_second : AudioPlayerState :=
  playEpisode episode2 (addToQueue episode2 (addToQueue episode1 initialState)).

(** The queue [[episode1; episode2]] with [episode1] playing, and the state
    after [removeFromQueue(1)] and [addToQueue(episode3)] ran in one batch:
    the queue is [[episode1; episode3]], pointer and length are as before. *)
Definition playing_first : AudioPlayerState :=
  playEpisode episode1 (addToQueue episode2 (addToQueue episode1 initialState)).

Definition entry_replaced : AudioPlayerState :=
  addToQueue episode3 (removeFromQueue 1 playing_first).

(** The pointer is -1 or names a slot of the queue. *)
Definition pointer_in_range (s : AudioPlayerState) : Prop :=
  -1 <= currentQueueIndex s < JS.len (queue s).

(** What the induction over operation sequences carries: without a current
    episode the pointer is -1, and with one the pointer names a slot holding
    its id. *)
Definition pointer_tracks_current (s : AudioPlayerState) : Prop :=
  (currentEpisode s = None -> currentQueueIndex s = -1) /\
  (forall e, currentEpisode s = Some e ->
     exists q, JS.get (queue s) (currentQueueIndex s) = Some q /\ id q = id e).

(** [skipTime] in the words of the specification: the target is
    [currentTime + delta] clamped to [[0, duration]], and only the lower
    bound applies while the duration is unknown (0 or [NaN]). *)
Definition skipTime_claimed (amount dur cur : JS.number) : JS.number :=
  if JS.truthy dur then
    JS.Math_max (JS.lit 0) (JS.Math_min dur (JS.add cur amount))
  else
    JS.Math_max (JS.lit 0) (JS.add cur amount).

(** A mounted element at position [t] that reported the duration [d], and
    the hook around it with [episode1] playing and both values mirrored
    into the state. *)
Definition mockAudio (t d : JS.number) : Audio.t :=
  {| Audio.src := "https://example.com/audio.mp3";
     Audio.currentTime := t;
     Audio.duration := d;
     Audio.readyState := 4;
     Audio.paused := false |}.

Definition mockHook (t d : JS.number) : Hook :=
  {| audioRef := Some (mockAudio t d);
     store := setDuration d (setCurrentTime t (playEpisode episode1 initialState)) |}.

(** ** Reading a debounce history *)

Definition stamp (o : Observed) : Z :=
  match o with
  | Ticked t _ _ _ | Wrote t _ _ _ => t
  end.

Definition handle_of (o : Observed) : nat :=
  match o with
  | Ticked _ k _ _ | Wrote _ k _ _ => k
  end.

(** The shape every history has (newest first): a tick is not older than
    what precedes it and carries a handle not seen before; a write comes
    directly after the tick that scheduled it, with the same handle and
    values, at least 2000 ms later. *)
Fixpoint debounced (h : list Observed) : Prop :=
  match h with
  | [] => True
  | Ticked t k _ _ :: r =>
      debounced r /\
      Forall (fun o => stamp o <= t) r /\
      Forall (fun o => (handle_of o < k)%nat) r
  | Wrote tw k i v :: r =>
      debounced r /\
      exists tk r', r = Ticked tk k i v :: r' /\ tk + 2000 <= tw
  end.

(** The value a [timeupdate] hands to [updateTimeProgress], if it gets
    that far, and the value a recorded tick scheduled. *)
Definition tick_of (ev : Event) : option (string * JS.number) :=
  match ev with
  | TimeUpdate state h =>
      match audioRef h, currentEpisode state with
      | Some audio, Some ep => Some (id ep, Audio.currentTime audio)
      | _, _ => None
      end
  | _ => None
  end.

Definition scheduled (o : Observed) : option (string * JS.number) :=
  match o with
  | Ticked _ _ i v => Some (i, v)
  | Wrote _ _ _ _ => None
  end.

(** What holds between the events of a debounce: a pending timeout is the
    one the ref names and was scheduled by the newest observation; the
    history is well shaped and lies in the past; and while a tick is the
    newest observation its timeout is pending. *)
Definition debounce_inv (w : Debounce) : Prop :=
  (forall k t, pending (timers w) !! k = Some t ->
     debouncedUpdateTimeRef w = Some k /\
     exists rest,
       history w = Ticked (due t - 2000) k (episodeId t) (time t) :: rest) /\
  debounced (history w) /\
  Forall (fun o => stamp o <= now w) (history w) /\
  Forall (fun o => (handle_of o < fresh (timers w))%nat) (history w) /\
  (forall t k i v rest, history w = Ticked t k i v :: rest ->
     pending (timers w) !! k = Some {| due := t + 2000; episodeId := i; time := v |}).

(** A [timeupdate] of [episode1] with the element at [t] seconds. *)
Definition tickAt (t : Z) : Event :=
  TimeUpdate (store (mockHook (JS.lit t) (JS.lit 180))) (mockHook (JS.lit t) (JS.lit 180)).

(** Two ticks one second apart, then a quiet period in which the second
    timeout runs. *)
Definition two_ticks_then_quiet : list Event :=
  [tickAt 10; Elapse 1000; tickAt 11; Elapse 2000; Expire 1%nat].

(** * The rest of the hook and the code around it *)

(** ** Callers of the queue operations *)

(** [addToQueue] called once for every element of [es], in order. *)
Definition addAllToQueue (es : list Episode) (s : AudioPlayerState) : AudioPlayerState :=
  foldl (fun s e => addToQueue e s) s es.

(** No two entries of the queue share an id. *)
Definition distinct_ids (s : AudioPlayerState) : Prop :=
  NoDup (id <$> queue s).

(** The [disabled] attributes of the previous and next buttons
    ([components/AudioPlayer.tsx], lines 87 and 119). *)
Definition previousDisabled (state : AudioPlayerState) : bool :=
  currentQueueIndex state <=? 0.

Definition nextDisabled (state : AudioPlayerState) : bool :=
  currentQueueIndex state >=? JS.len (queue state) - 1.

(** The queue [[episode1; episode1]], which two [addToQueue] calls build,
    with [episode1] playing: the pointer is on slot 0. *)
Definition queued_twice : AudioPlayerState :=
  playEpisode episode1 (addToQueue episode1 (addToQueue episode1 initialState)).

(** The listeners of the element's native [play] and [pause] events
    (lines 228-229). *)
Definition handlePlay (prev : AudioPlayerState) : AudioPlayerState :=
  setIsPlaying true prev.

Definition handlePause (prev : AudioPlayerState) : AudioPlayerState :=
  setIsPlaying false prev.

(** ** The progress map of the application *)

Record User := {
  uid : string;
  email : option string;
  isAnonymous : bool
}.

(** The [onTimeProgress] callback the application passes to the hook
    ([App.tsx], lines 123-131): the state update
    [{ ...episodeProgress, [episodeId]: time }].  (The same map is then
    handed to the storage service, which is not part of this model.) *)
Definition App_updateTimeProgress (currentUser : option User)
    (episodeProgress : gmap string JS.number) (episodeId : string) (time : JS.number)
  : gmap string JS.number :=
  match currentUser with
  | None => episodeProgress
  | Some _ =>
      if String.eqb episodeId "" then episodeProgress
      else <[episodeId := time]> episodeProgress
  end.

Definition offlineUser : User :=
  {| uid := "offline-user"; email := Some "offline@podflow.com"%string;
     isAnonymous := false |}.

(** ** Counting in a debounce history *)

Definition is_write (o : Observed) : bool :=
  match o with Wrote _ _ _ _ => true | Ticked _ _ _ _ => false end.

Definition is_tick (o : Observed) : bool :=
  match o with Ticked _ _ _ _ => true | Wrote _ _ _ _ => false end.

(** A [timeupdate] that [handleTimeUpdate] or [updateTimeProgress] returns
    from at once: no element, no current episode, or an empty id. *)
Definition ignored_tick (state : AudioPlayerState) (h : Hook) : Prop :=
  audioRef h = None \/
  currentEpisode state = None \/
  exists ep, currentEpisode state = Some ep /\ id ep = ""%string.

Definition count_writes (h : list Observed) : nat := length (List.filter is_write h).
Definition count_ticks (h : list Observed) : nat := length (List.filter is_tick h).

(** ** [src/utils]: text and time formatting *)

From Stdlib Require Import Ascii DecimalString.

(** A string is its sequence of code units, each an [ascii] here. *)

(** [truncateText] ([utils/index.ts], lines 38-41).  [substring(0, n)]
    takes a negative [n] as 0. *)
Definition truncateText (text : string) (maxLength : Z) : string :=
  if Z.of_nat (String.length text) <=? maxLength then text
  else String.substring 0 (Z.to_nat maxLength) text +:+ "...".

(** [stripHtml] (lines 31-33): [html.replace(/<[^>]*>?/gm, '')].  A match
    starts at a ["<"], takes every following unit that is not [">"]
    (greedily, line breaks included) and then a [">"] if there is one; it
    cannot fail once the ["<"] is read.  So a scan either copies units
    ([inTag = false]) or drops them up to and including the next [">"]. *)
Fixpoint strip (inTag : bool) (html : string) : string :=
  match html with
  | EmptyString => EmptyString
  | String c rest =>
      if inTag then
        if Ascii.eqb c ">" then strip false rest else strip true rest
      else
        if Ascii.eqb c "<" then strip true rest else String c (strip false rest)
  end.

Definition stripHtml (html : string) : string := strip false html.

(** Whether the unit [c] occurs in [s]. *)
Fixpoint occurs (c : ascii) (s : string) : bool :=
  match s with
  | EmptyString => false
  | String d rest => Ascii.eqb d c || occurs c rest
  end.

Module JSNum.

(** [m * 2^e], for literals such as [0.5]. *)
Definition dyadic (m e : Z) : JS.number := binary_normalize JS.prec JS.emax m e false.

Definition mul (x y : JS.number) : JS.number := SFmul JS.prec JS.emax x y.

(** [x < y] and [x >= y]: false as soon as one side is [NaN]. *)
Definition lt (x y : JS.number) : bool := SFltb x y.
Definition ge (x y : JS.number) : bool := SFleb y x.

Definition isNaN (x : JS.number) : bool :=
  match x with S754_nan => true | _ => false end.

(** The integer part of a finite number (rounding towards zero). *)
Definition truncate (s : bool) (m : positive) (e : Z) : Z :=
  let magnitude := if 0 <=? e then Z.pos m * 2 ^ e else Z.pos m / 2 ^ (- e) in
  if s then - magnitude else magnitude.

(** [n.toString()] for an integer or [NaN] ([None]). *)
Definition toString (n : option Z) : string :=
  match n with
  | None => "NaN"
  | Some z =>
      if z <? 0 then "-" +:+ NilZero.string_of_uint (N.to_uint (Z.to_N (- z)))
      else NilZero.string_of_uint (N.to_uint (Z.to_N z))
  end.

(** [s.padStart(targetLength, "0")]. *)
Definition padStart0 (targetLength : nat) (s : string) : string :=
  String.concat "" (repeat "0"%string (targetLength - String.length s)) +:+ s.

(** A truthy number that is an integer or [NaN]. *)
Definition truthyInt (n : option Z) : bool :=
  match n with
  | None => false
  | Some z => negb (z =? 0)
  end.

End JSNum.

(** [new Date(value)]: the time value in milliseconds, or [None] for an
    invalid date.  The value is cut to an integer and must lie within
    8.64e15 ms of the epoch.  (A double beyond 2^52 is an integer, so the
    bound can be tested after the cut.) *)
Definition Date_new (value : JS.number) : option Z :=
  match value with
  | S754_nan | S754_infinity _ => None
  | S754_zero _ => Some 0
  | S754_finite s m e =>
      let t := JSNum.truncate s m e in
      if Z.abs t <=? 8640000000000000 then Some t else None
  end.

Definition getUTCHours (date : option Z) : option Z :=
  match date with Some t => Some ((t / 3600000) mod 24) | None => None end.

Definition getUTCMinutes (date : option Z) : option Z :=
  match date with Some t => Some ((t / 60000) mod 60) | None => None end.

Definition getUTCSeconds (date : option Z) : option Z :=
  match date with Some t => Some ((t / 1000) mod 60) | None => None end.

(** [formatTime] (lines 4-16). *)
Definition formatTime (seconds : JS.number) : string :=
  if JSNum.isNaN seconds || JSNum.lt seconds (JS.lit 0) then "0:00"
  else
    let date := Date_new (JSNum.mul seconds (JS.lit 1000)) in
    let hh := getUTCHours date in
    let mm := getUTCMinutes date in
    let ss := JSNum.padStart0 2 (JSNum.toString (getUTCSeconds date)) in
    if JSNum.truthyInt hh then
      JSNum.toString hh +:+ ":" +:+ JSNum.padStart0 2 (JSNum.toString mm) +:+ ":" +:+ ss
    else
      JSNum.toString mm +:+ ":" +:+ ss.

(** The speed button of the application ([App.tsx], lines 642-646): the
    next speed, which [setPlaybackSpeed] stores in the state. *)
Definition nextSpeed (currentSpeed : JS.number) : JS.number :=
  if JSNum.ge currentSpeed (JS.lit 2) then JSNum.dyadic 1 (-1)
  else JS.add currentSpeed (JSNum.dyadic 1 (-1)).

Definition setPlaybackSpeedState (speed : JS.number) (prev : AudioPlayerState)
  : AudioPlayerState :=
  {| currentEpisode := currentEpisode prev;
     isPlaying := isPlaying prev;
     playbackSpeed := speed;
     volume := volume prev;
     currentTime := currentTime prev;
     duration := duration prev;
     queue := queue prev;
     currentQueueIndex := currentQueueIndex prev |}.

Definition onSpeedChange (state prev : AudioPlayerState) : AudioPlayerState :=
  setPlaybackSpeedState (nextSpeed (playbackSpeed state)) prev.

(** The speed button pressed [n] times, each press after a render. *)
Fixpoint pressSpeed (n : nat) (s : AudioPlayerState) : AudioPlayerState :=
  match n with
  | O => s
  | S n' => let s' := pressSpeed n' s in onSpeedChange s' s'
  end.

(** The hour, minute and second fields of a time value, and the text
    [formatTime] builds from them. *)
Definition clock_of (t : Z) : Z * Z * Z :=
  ((t / 3600000) mod 24, (t / 60000) mod 60, (t / 1000) mod 60).

Definition clock_text (c : Z * Z * Z) : string :=
  let '(hh, mm, ss) := c in
  if negb (hh =? 0) then
    JSNum.toString (Some hh) +:+ ":" +:+ JSNum.padStart0 2 (JSNum.toString (Some mm))
      +:+ ":" +:+ JSNum.padStart0 2 (JSNum.toString (Some ss))
  else
    JSNum.toString (Some mm) +:+ ":" +:+ JSNum.padStart0 2 (JSNum.toString (Some ss)).

(** The speeds the button steps through. *)
Definition button_speed (x : JS.number) : Prop :=
  x = JSNum.dyadic 1 (-1) \/ x = JS.lit 1 \/ x = JSNum.dyadic 3 (-1) \/ x = JS.lit 2.

(** ** [App.tsx]: subscriptions *)

(** A [Set<string>]: its elements in insertion order, without repeats. *)
Module JSSet.

Definition has (x : string) (s : list string) : bool := existsb (String.eqb x) s.

Definition add (x : string) (s : list string) : list string :=
  if has x s then s else s ++ [x].

Definition delete (x : string) (s : list string) : list string :=
  List.filter (fun y => negb (String.eqb y x)) s.

(** [new Set(iterable)]. *)
Definition from (l : list string) : list string := foldl (fun s x => add x s) [] l.

End JSSet.

Inductive ViewType :=
| View_explore | View_my_podcasts | View_podcast_detail
| View_queue | View_login | View_register.

(** What [toggleSubscription] leaves behind: the view, the subscription
    set, and the array handed to [saveUserData], if any. *)
Record Toggled := {
  activeView : ViewType;
  subscribedPodcastIds : list string;
  savedSubscriptions : option (list string)
}.

(** [toggleSubscription] ([App.tsx], lines 196-213). *)
Definition toggleSubscription (currentUser : option User) (activeView : ViewType)
    (subscribedPodcastIds : list string) (podcastId : string) : Toggled :=
  let toLogin :=
    {| activeView := View_login; subscribedPodcastIds := subscribedPodcastIds;
       savedSubscriptions := None |} in
  match currentUser with
  | None => toLogin
  | Some user =>
      if isAnonymous user then toLogin
      else
        let copy := JSSet.from subscribedPodcastIds in
        let newSubscribedIds :=
          if JSSet.has podcastId copy then JSSet.delete podcastId copy
          else JSSet.add podcastId copy in
        {| activeView := activeView; subscribedPodcastIds := newSubscribedIds;
           savedSubscriptions := Some newSubscribedIds |}
  end.

(** ** [App.tsx]: playing and queueing from a show *)

Module Podcast.

Record t := {
  id : string;
  title : string;
  publisher : string;
  imageUrl : string;
  feedUrl : string;
  description : option string;
  episodes : list Episode
}.

End Podcast.

(** [{ ...episode, podcastTitle: podcast.title, podcastImageUrl:
    podcast.imageUrl }] (lines 236-240 and 245-249). *)
Definition withMeta (podcast : Podcast.t) (episode : Episode) : Episode :=
  {| id := id episode;
     title := title episode;
     description := description episode;
     pubDate := pubDate episode;
     audioUrl := audioUrl episode;
     podcastTitle := Some (Podcast.title podcast);
     podcastImageUrl := Some (Podcast.imageUrl podcast) |}.

Definition handlePlayEpisode (podcast : Podcast.t) (episode : Episode)
    (prev : AudioPlayerState) : AudioPlayerState :=
  playEpisode (withMeta podcast episode) prev.

Definition handleAddToQueue (podcast : Podcast.t) (episode : Episode)
    (prev : AudioPlayerState) : AudioPlayerState :=
  addToQueue (withMeta podcast episode) prev.

Definition mockPodcast : Podcast.t :=
  {| Podcast.id := "123456"; Podcast.title := "Test Podcast";
     Podcast.publisher := "Test Artist";
     Podcast.imageUrl := "https://example.com/artwork.jpg";
     Podcast.feedUrl := "https://example.com/feed.xml";
     Podcast.description := None; Podcast.episodes := [] |}.

(** ** [services/podcast.ts]: episodes from the items of a feed *)

(** What the mapping reads from one [<item>]: the text of its [guid],
    [title], [description] and [pubDate] children ([None] when the child
    is missing) and the [url] attribute of its [enclosure] ([None] when
    the child or the attribute is missing). *)
Record FeedItem := {
  item_guid : option string;
  item_enclosure_url : option string;
  item_title : option string;
  item_description : option string;
  item_pubDate : option string
}.

(** An episode as the mapping builds it.  The audio URL may still be
    missing and the date invalid ([None]). *)
Record FeedEpisode := {
  fe_id : string;
  fe_title : string;
  fe_description : string;
  fe_pubDate : option Z;
  fe_audioUrl : option string
}.

(** [a || b] on strings that may be [undefined]: [a] unless it is missing
    or empty. *)
Definition orElse (a : option string) (b : string) : string :=
  match a with
  | Some s => if String.eqb s "" then b else s
  | None => b
  end.

Definition truthyString (a : option string) : bool :=
  match a with
  | Some s => negb (String.eqb s "")
  | None => false
  end.

Section Feed.

(** The environment of the mapping: the date parser of the platform
    ([None] for an invalid date), the current time, and the text
    [Math.random().toString()] returns at the item of a given position. *)
Variable Date_parse : string -> option Z.
Variable Date_now : Z.
Variable random : nat -> string.

(** The callback of [items.map] (lines 59-69). *)
Definition episodeOfItem (position : nat) (item : FeedItem) : FeedEpisode :=
  let audioUrl := item_enclosure_url item in
  let pubDateText := item_pubDate item in
  {| fe_id := orElse (item_guid item) (orElse audioUrl (random position));
     fe_title := orElse (item_title item) "Untitled Episode";
     fe_description :=
       stripHtml (orElse (item_description item) "No description available.");
     fe_pubDate :=
       if truthyString pubDateText then
         match pubDateText with Some text => Date_parse text | None => None end
       else Some Date_now;
     fe_audioUrl := audioUrl |}.

(** [items.map(...).filter(ep => ep.audioUrl)] (lines 59-70). *)
Definition episodesOfItems (items : list FeedItem) : list FeedEpisode :=
  List.filter (fun ep => truthyString (fe_audioUrl ep)) (imap episodeOfItem items).

End Feed.

(** ** End of media, several times *)

(** [handleEnded] fired [k] times with nothing else in between, from the
    state [s] and with a handler in use that closed over [held].  Each
    firing runs the handler in use on the current state; the render that
    follows keeps that handler or makes a new one, as its dependency list
    says.  The result is the snapshot of the handler then in use and the
    state. *)
Fixpoint endedTimes (k : nat) (held s : AudioPlayerState)
  : option (AudioPlayerState * AudioPlayerState) :=
  match k with
  | O => Some (held, s)
  | S k' =>
      match endedTimes k' held s with
      | Some (held', s') =>
          match handleEnded held' s' with
          | Some s'' => Some (handleEnded_snapshot held' s'', s'')
          | None => None
          end
      | None => None
      end
  end.

(** ** The older variant of the player, inline in [app.tsx] *)

(** There the queue, the pointer, the current episode and the playing flag
    are separate [useState] cells, read from the render and written
    directly; [AudioPlayerState] holds them here.  [playNext] and
    [playPrevious] ([app.tsx], lines 390-396 and 424-430) set the pointer
    to the adjacent index themselves instead of calling [playEpisode]. *)
Definition legacy_playNext (state : AudioPlayerState) : option AudioPlayerState :=
  if currentQueueIndex state <? JS.len (queue state) - 1 then
    let nextIndex := currentQueueIndex state + 1 in
    match JS.get (queue state) nextIndex with
    | Some nextEpisode =>
        Some {| currentEpisode := Some nextEpisode;
                isPlaying := true;
                playbackSpeed := playbackSpeed state;
                volume := volume state;
                currentTime := currentTime state;
                duration := duration state;
                queue := queue state;
                currentQueueIndex := nextIndex |}
    | None => None
    end
  else Some state.

Definition legacy_playPrevious (state : AudioPlayerState) : option AudioPlayerState :=
  if currentQueueIndex state >? 0 then
    let prevIndex := currentQueueIndex state - 1 in
    match JS.get (queue state) prevIndex with
    | Some prevEpisode =>
        Some {| currentEpisode := Some prevEpisode;
                isPlaying := true;
                playbackSpeed := playbackSpeed state;
                volume := volume state;
                currentTime := currentTime state;
                duration := duration state;
                queue := queue state;
                currentQueueIndex := prevIndex |}
    | None => None
    end
  else Some state.

(** The queue [[episode1; episode2; episode1']], which [addToQueue] builds,
    with [episode2] playing. *)
Definition repeated_id : AudioPlayerState :=
  playEpisode episode2
    (addToQueue episode1' (addToQueue episode2 (addToQueue episode1 initialState))).
(** * Properties *)

(** ** The scenarios of [useAudioPlayer.test.ts], run on the model *)

Example test_playEpisode_adds_and_plays :
  playEpisode episode1 initialState =
  {| currentEpisode := Some episode1; isPlaying := true;
     playbackSpeed := JS.lit 1; volume := JS.lit 1;
     currentTime := JS.lit 0; duration := JS.lit 0;
     queue := [episode1]; currentQueueIndex := 0 |}.
Proof. reflexivity. Qed.

Example test_playEpisode_no_duplicate :
  queue (playEpisode episode1 (playEpisode episode1 initialState)) = [episode1] /\
  currentQueueIndex (playEpisode episode1 (playEpisode episode1 initialState)) = 0.
Proof. split; reflexivity. Qed.

Example test_removeFromQueue_adjusts_index :
  let s := playEpisode episode3
             (addToQueue episode3 (addToQueue episode2 (addToQueue episode1 initialState))) in
  currentQueueIndex s = 2 /\
  currentQueueIndex (removeFromQueue 0 s) = 1 /\
  queue (removeFromQueue 0 s) = [episode2; episode3].
Proof. repeat split. Qed.

Example test_navigates_through_queue :
  currentQueueIndex three_queued = 0 /\
  (exists s1, playNext three_queued three_queued = Some s1 /\
     currentQueueIndex s1 = 1 /\ currentEpisode s1 = Some episode2 /\
     exists s2, playPrevious s1 s1 = Some s2 /\
       currentQueueIndex s2 = 0 /\ currentEpisode s2 = Some episode1).
Proof.
  split; [reflexivity|].
  eexists. split; [reflexivity|]. split; [reflexivity|]. split; [reflexivity|].
  eexists. split; [reflexivity|]. split; reflexivity.
Qed.

Example test_clearQueue :
  clearQueue (addToQueue episode2 (playEpisode episode1 initialState)) = initialState.
Proof. reflexivity. Qed.

Example test_skipTime_forward_and_back :
  let h1 := skipTime (JS.lit 30) (store (mockHook (JS.lit 60) (JS.lit 300)))
              (mockHook (JS.lit 60) (JS.lit 300)) in
  currentTime (store h1) = JS.lit 90 /\
  currentTime (store (skipTime (JS.lit (-45)) (store h1) h1)) = JS.lit 45.
Proof. split; reflexivity. Qed.

(** ** Arrays *)

Section Arrays.

Context {A : Type}.
Implicit Types (a : list A) (p : A -> bool).

Lemma get_nat a (n : nat) : JS.get a (Z.of_nat n) = a !! n.
Proof.
  unfold JS.get. destruct (Z.ltb_spec (Z.of_nat n) 0); [lia|].
  now rewrite Nat2Z.id.
Qed.

Lemma get_Some a i x :
  JS.get a i = Some x <-> 0 <= i /\ a !! Z.to_nat i = Some x.
Proof.
  unfold JS.get. destruct (Z.ltb_spec i 0); split.
  - discriminate.
  - intros [? _]; lia.
  - auto.
  - now intros [_ ?].
Qed.

Lemma get_in_range a i : 0 <= i < JS.len a -> is_Some (JS.get a i).
Proof.
  intros Hi. unfold JS.get, JS.len in *.
  destruct (Z.ltb_spec i 0); [lia|].
  apply lookup_lt_is_Some. lia.
Qed.

Lemma get_out_of_range a i : i < 0 \/ JS.len a <= i -> JS.get a i = None.
Proof.
  intros Hi. unfold JS.get, JS.len in *.
  destruct (Z.ltb_spec i 0); [reflexivity|].
  apply lookup_ge_None. lia.
Qed.

(** [findIndex] either finds nothing and answers -1, or answers the least
    position of an element that satisfies the test. *)
Lemma findIndex_from_spec p a i :
  0 <= i ->
  (JS.findIndex_from p a i = -1 /\ forall x, x ∈ a -> p x = false) \/
  (exists (n : nat) x,
      JS.findIndex_from p a i = i + Z.of_nat n /\
      a !! n = Some x /\ p x = true /\
      forall (m : nat) y, (m < n)%nat -> a !! m = Some y -> p y = false).
Proof.
  revert i. induction a as [|x a IH]; intros i Hi; simpl.
  - left. split; [reflexivity|]. intros x Hx. inversion Hx.
  - destruct (p x) eqn:Hpx.
    + right. exists 0%nat, x. repeat split; [lia|assumption|].
      intros m y Hm. lia.
    + destruct (IH (i + 1)) as [[Hnone Hall]|(n & y & Hidx & Hn & Hpy & Hleast)]; [lia| |].
      * left. split; [assumption|].
        intros z Hz. apply elem_of_cons in Hz as [->|Hz]; auto.
      * right. exists (S n), y. repeat split; [lia|assumption|assumption|].
        intros [|m] z Hm Hz; simpl in Hz.
        -- now inversion Hz; subst.
        -- apply (Hleast m); [lia|assumption].
Qed.

Lemma findIndex_spec p a :
  (JS.findIndex p a = -1 /\ forall x, x ∈ a -> p x = false) \/
  (exists (n : nat) x,
      JS.findIndex p a = Z.of_nat n /\
      a !! n = Some x /\ p x = true /\
      forall (m : nat) y, (m < n)%nat -> a !! m = Some y -> p y = false).
Proof.
  unfold JS.findIndex.
  destruct (findIndex_from_spec p a 0) as [?|(n & x & Hidx & ?)]; [lia|now left|].
  right. exists n, x. now rewrite Hidx.
Qed.

(** [filter((_, i) => i !== index)] drops the element at [index], if any. *)
Lemma filter_from_skip a i index :
  index < i \/ i + JS.len a <= index ->
  JS.filter_from (fun _ j => negb (j =? index)) a i = a.
Proof.
  revert i. unfold JS.len.
  induction a as [|x a IH]; intros i Hi; simpl; [reflexivity|].
  simpl length in Hi.
  destruct (Z.eqb_spec i index); [lia|]. simpl.
  f_equal. apply IH. lia.
Qed.

Lemma filter_from_delete a i index :
  i <= index < i + JS.len a ->
  JS.filter_from (fun _ j => negb (j =? index)) a i = delete (Z.to_nat (index - i)) a.
Proof.
  revert i. unfold JS.len.
  induction a as [|x a IH]; intros i Hi; simpl in *; [lia|].
  destruct (Z.eqb_spec i index) as [->|Hne]; simpl.
  - rewrite Z.sub_diag. simpl. apply filter_from_skip. lia.
  - replace (Z.to_nat (index - i)) with (S (Z.to_nat (index - (i + 1)))) by lia.
    simpl. f_equal. apply IH. lia.
Qed.

Lemma filter_out_of_range a index :
  index < 0 \/ JS.len a <= index ->
  JS.filter (fun _ j => negb (j =? index)) a = a.
Proof. intros H. apply filter_from_skip. lia. Qed.

Lemma filter_in_range a index :
  0 <= index < JS.len a ->
  JS.filter (fun _ j => negb (j =? index)) a =
  take (Z.to_nat index) a ++ drop (S (Z.to_nat index)) a.
Proof.
  intros H. unfold JS.filter. rewrite filter_from_delete by lia.
  rewrite Z.sub_0_r. apply delete_take_drop.
Qed.

End Arrays.

(** ** [playEpisode] *)

Lemma same_id_true e q : same_id e q = true <-> id q = id e.
Proof. apply String.eqb_eq. Qed.

Lemma same_id_false e q : same_id e q = false <-> id q <> id e.
Proof. apply String.eqb_neq. Qed.

(** The two branches of the updater, told apart by what the queue holds. *)
Lemma playEpisode_fresh e s :
  (forall q, q ∈ queue s -> id q <> id e) ->
  playEpisode e s =
  {| currentEpisode := Some e; isPlaying := true;
     playbackSpeed := playbackSpeed s; volume := volume s;
     currentTime := currentTime s; duration := duration s;
     queue := queue s ++ [e]; currentQueueIndex := JS.len (queue s) |}.
Proof.
  intros Hfresh. unfold playEpisode.
  destruct (findIndex_spec (same_id e) (queue s))
    as [[Hidx _]|(n & q & _ & Hq & Hp & _)].
  - unfold same_id in Hidx. now rewrite Hidx.
  - exfalso. apply (Hfresh q).
    + apply list_elem_of_lookup. eauto.
    + now apply same_id_true.
Qed.

Lemma playEpisode_present e s :
  (exists q, q ∈ queue s /\ id q = id e) ->
  exists (n : nat) q,
    queue s !! n = Some q /\ id q = id e /\
    (forall (m : nat) q', (m < n)%nat -> queue s !! m = Some q' -> id q' <> id e) /\
    playEpisode e s =
    {| currentEpisode := Some e; isPlaying := true;
       playbackSpeed := playbackSpeed s; volume := volume s;
       currentTime := currentTime s; duration := duration s;
       queue := queue s; currentQueueIndex := Z.of_nat n |}.
Proof.
  intros (q0 & Hin & Hid). unfold playEpisode.
  destruct (findIndex_spec (same_id e) (queue s))
    as [[_ Hall]|(n & q & Hidx & Hq & Hp & Hleast)].
  - specialize (Hall q0 Hin). apply same_id_false in Hall. contradiction.
  - exists n, q. unfold same_id in Hidx. rewrite Hidx.
    destruct (Z.eqb_spec (Z.of_nat n) (-1)); [lia|]. simpl.
    repeat split; [assumption|now apply same_id_true|].
    intros m q' Hm Hq'. apply same_id_false. eauto.
Qed.

Lemma in_queue_dec e s :
  (exists q, q ∈ queue s /\ id q = id e) \/ (forall q, q ∈ queue s -> id q <> id e).
Proof.
  destruct (findIndex_spec (same_id e) (queue s))
    as [[_ Hall]|(n & q & _ & Hq & Hp & _)].
  - right. intros q Hq. apply same_id_false. auto.
  - left. exists q. split; [apply list_elem_of_lookup; eauto|now apply same_id_true].
Qed.

(** C4.  [playEpisode(e)] deduplicates by id.  If an entry of the queue has
    the id of [e], the queue keeps its length, [currentQueueIndex] is the
    index of the (first) entry with that id and [isPlaying] is true.
    Otherwise [e] is appended, [currentQueueIndex] is the new last index and
    [isPlaying] is true. *)
Theorem playEpisode_deduplicates (e : Episode) (s : AudioPlayerState) :
  ((exists q, q ∈ queue s /\ id q = id e) ->
     length (queue (playEpisode e s)) = length (queue s) /\
     (exists (n : nat) q,
         currentQueueIndex (playEpisode e s) = Z.of_nat n /\
         queue s !! n = Some q /\ id q = id e /\
         forall (m : nat) q', (m < n)%nat -> queue s !! m = Some q' -> id q' <> id e) /\
     isPlaying (playEpisode e s) = true) /\
  ((forall q, q ∈ queue s -> id q <> id e) ->
     queue (playEpisode e s) = queue s ++ [e] /\
     currentQueueIndex (playEpisode e s) = JS.len (queue (playEpisode e s)) - 1 /\
     isPlaying (playEpisode e s) = true).
Proof.
  split.
  - intros Hin. destruct (playEpisode_present e s Hin) as (n & q & Hq & Hid & Hleast & ->).
    simpl. split; [reflexivity|]. split; [|reflexivity].
    exists n, q. auto.
  - intros Hfresh. rewrite (playEpisode_fresh e s Hfresh). simpl.
    repeat split. unfold JS.len. rewrite length_app. simpl. lia.
Qed.

Lemma playEpisode_deduplicates_witness :
  (length (queue (playEpisode episode1' (playEpisode episode1 initialState))) = 1%nat /\
   currentQueueIndex (playEpisode episode1' (playEpisode episode1 initialState)) = 0) /\
  (queue (playEpisode episode2 (playEpisode episode1 initialState)) = [episode1; episode2] /\
   currentQueueIndex (playEpisode episode2 (playEpisode episode1 initialState)) = 1).
Proof.
  split.
  - destruct (proj1 (playEpisode_deduplicates episode1' (playEpisode episode1 initialState)))
      as (Hlen & _ & _).
    + exists episode1. split; [apply list_elem_of_here|reflexivity].
    + split; [exact Hlen|reflexivity].
  - destruct (proj2 (playEpisode_deduplicates episode2 (playEpisode episode1 initialState)))
      as (Hq & Hidx & _).
    + intros q Hq. apply list_elem_of_singleton in Hq as ->. discriminate.
    + split; [exact Hq|exact Hidx].
Defined.

(** C10.  When the id of [e] is already queued, [playEpisode(e)] leaves the
    queue as it is (the stored entry is not replaced) and makes the argument
    record the current episode; the slot the pointer names agrees with it on
    the id.  The other fields may differ: playing [episode1'] over a queued
    [episode1] leaves two titles, descriptions, show titles and show
    images. *)
Theorem playEpisode_keeps_stored_entry :
  (forall (e : Episode) (s : AudioPlayerState),
      (exists q, q ∈ queue s /\ id q = id e) ->
      queue (playEpisode e s) = queue s /\
      currentEpisode (playEpisode e s) = Some e /\
      exists q, JS.get (queue (playEpisode e s)) (currentQueueIndex (playEpisode e s)) = Some q /\
                id q = id e) /\
  (let s := playEpisode episode1' (playEpisode episode1 initialState) in
   exists c q,
     currentEpisode s = Some c /\
     JS.get (queue s) (currentQueueIndex s) = Some q /\
     id q = id c /\
     title q <> title c /\ description q <> description c /\
     podcastTitle q <> podcastTitle c /\ podcastImageUrl q <> podcastImageUrl c).
Proof.
  split.
  - intros e s Hin.
    destruct (playEpisode_present e s Hin) as (n & q & Hq & Hid & _ & ->). simpl.
    repeat split. exists q. now rewrite get_nat.
  - exists episode1', episode1. repeat split; discriminate.
Qed.

Lemma playEpisode_keeps_stored_entry_witness :
  queue (playEpisode episode1' (playEpisode episode1 initialState)) = [episode1] /\
  currentEpisode (playEpisode episode1' (playEpisode episode1 initialState)) = Some episode1'.
Proof.
  destruct (proj1 playEpisode_keeps_stored_entry episode1' (playEpisode episode1 initialState))
    as (Hq & Hc & _).
  - exists episode1. split; [apply list_elem_of_here|reflexivity].
  - split; [exact Hq|exact Hc].
Defined.

(** ** [removeFromQueue] *)

Lemma removeFromQueue_queue_in_range i s :
  0 <= i < JS.len (queue s) ->
  queue (removeFromQueue i s) =
  take (Z.to_nat i) (queue s) ++ drop (S (Z.to_nat i)) (queue s).
Proof.
  intros Hi. unfold removeFromQueue.
  destruct (i <? currentQueueIndex s); [|destruct (i =? currentQueueIndex s)];
    simpl; now apply filter_in_range.
Qed.

Lemma removeFromQueue_queue_out_of_range i s :
  i < 0 \/ JS.len (queue s) <= i ->
  queue (removeFromQueue i s) = queue s.
Proof.
  intros Hi. unfold removeFromQueue.
  destruct (i <? currentQueueIndex s); [|destruct (i =? currentQueueIndex s)];
    simpl; now apply filter_out_of_range.
Qed.

(** How the three pointer fields move, whatever the index. *)
Lemma removeFromQueue_pointer i s :
  (i < currentQueueIndex s ->
     currentQueueIndex (removeFromQueue i s) = currentQueueIndex s - 1 /\
     currentEpisode (removeFromQueue i s) = currentEpisode s /\
     isPlaying (removeFromQueue i s) = isPlaying s) /\
  (i = currentQueueIndex s ->
     currentEpisode (removeFromQueue i s) = None /\
     isPlaying (removeFromQueue i s) = false /\
     currentQueueIndex (removeFromQueue i s) = -1) /\
  (i > currentQueueIndex s ->
     currentQueueIndex (removeFromQueue i s) = currentQueueIndex s /\
     currentEpisode (removeFromQueue i s) = currentEpisode s /\
     isPlaying (removeFromQueue i s) = isPlaying s).
Proof.
  unfold removeFromQueue.
  destruct (Z.ltb_spec i (currentQueueIndex s));
    [|destruct (Z.eqb_spec i (currentQueueIndex s))]; simpl;
    (repeat split; intros; try reflexivity; lia).
Qed.

(** C5.  [removeFromQueue(i)] for an index of the queue removes the entry at
    [i]; below the pointer it decrements the pointer by one and keeps
    [currentEpisode] and [isPlaying]; at the pointer it resets to
    [null]/[false]/[-1] whatever the queue held; above the pointer the three
    fields stay. *)
Theorem removeFromQueue_in_range (i : Z) (s : AudioPlayerState) :
  0 <= i < JS.len (queue s) ->
  queue (removeFromQueue i s) =
    take (Z.to_nat i) (queue s) ++ drop (S (Z.to_nat i)) (queue s) /\
  (i < currentQueueIndex s ->
     currentQueueIndex (removeFromQueue i s) = currentQueueIndex s - 1 /\
     currentEpisode (removeFromQueue i s) = currentEpisode s /\
     isPlaying (removeFromQueue i s) = isPlaying s) /\
  (i = currentQueueIndex s ->
     currentEpisode (removeFromQueue i s) = None /\
     isPlaying (removeFromQueue i s) = false /\
     currentQueueIndex (removeFromQueue i s) = -1) /\
  (i > currentQueueIndex s ->
     currentQueueIndex (removeFromQueue i s) = currentQueueIndex s /\
     currentEpisode (removeFromQueue i s) = currentEpisode s /\
     isPlaying (removeFromQueue i s) = isPlaying s).
Proof.
  intros Hi. split.
  - now apply removeFromQueue_queue_in_range.
  - apply removeFromQueue_pointer.
Qed.

Lemma removeFromQueue_in_range_witness :
  queue (removeFromQueue 0 playing_second) = [episode2] /\
  currentQueueIndex (removeFromQueue 0 playing_second) = 0 /\
  currentEpisode (removeFromQueue 0 playing_second) = Some episode2 /\
  isPlaying (removeFromQueue 0 playing_second) = true.
Proof.
  destruct (removeFromQueue_in_range 0 playing_second) as (Hq & Hlt & _).
  - vm_compute. split; [discriminate|reflexivity].
  - destruct Hlt as (Hi & He & Hp); [reflexivity|].
    split; [exact Hq|]. split; [exact Hi|]. split; [exact He|exact Hp].
Defined.

Lemma playing_second_reachable : reachable playing_second.
Proof.
  apply (reachable_step (PlayEpisode episode2)
           (addToQueue episode2 (addToQueue episode1 initialState))); [|reflexivity].
  apply (reachable_step (AddToQueue episode2) (addToQueue episode1 initialState));
    [|reflexivity].
  apply (reachable_step (AddToQueue episode1) initialState); [|reflexivity].
  apply reachable_init.
Qed.

Lemma playing_second_reachable_nonneg : reachable_nonneg playing_second.
Proof.
  apply (reachable_nonneg_step (PlayEpisode episode2)
           (addToQueue episode2 (addToQueue episode1 initialState)));
    [|exact I|reflexivity].
  apply (reachable_nonneg_step (AddToQueue episode2) (addToQueue episode1 initialState));
    [|exact I|reflexivity].
  apply (reachable_nonneg_step (AddToQueue episode1) initialState);
    [|exact I|reflexivity].
  apply reachable_nonneg_init.
Qed.

(** C2, as stated, fails.  With [episode2] playing at index 1,
    [removeFromQueue(-1)] removes nothing and still decrements the pointer,
    which then names [episode1]. *)
Lemma removeFromQueue_negative_index_moves_pointer :
  -1 < 0 /\
  reachable playing_second /\
  currentQueueIndex playing_second = 1 /\
  queue (removeFromQueue (-1) playing_second) = queue playing_second /\
  currentQueueIndex (removeFromQueue (-1) playing_second) = 0 /\
  removeFromQueue (-1) playing_second <> playing_second.
Proof.
  split; [lia|]. split; [apply playing_second_reachable|].
  repeat split. intros H.
  apply (f_equal currentQueueIndex) in H. discriminate H.
Qed.

Lemma state_eta (s : AudioPlayerState) :
  s = {| currentEpisode := currentEpisode s; isPlaying := isPlaying s;
         playbackSpeed := playbackSpeed s; volume := volume s;
         currentTime := currentTime s; duration := duration s;
         queue := queue s; currentQueueIndex := currentQueueIndex s |}.
Proof. now destruct s. Qed.

Lemma removeFromQueue_noop index s :
  index < 0 \/ JS.len (queue s) <= index ->
  currentQueueIndex s < index ->
  removeFromQueue index s = s.
Proof.
  intros Hout Hgt. rewrite (state_eta s) at 2.
  pose proof (removeFromQueue_queue_out_of_range index s Hout) as Hq.
  revert Hq. unfold removeFromQueue.
  destruct (Z.ltb_spec index (currentQueueIndex s)); [lia|].
  destruct (Z.eqb_spec index (currentQueueIndex s)); [lia|].
  simpl. now intros ->.
Qed.

(** C2, amended.  [removeFromQueue(index)] with an index outside the queue
    always returns a state and leaves the queue as it is.  It is a no-op on
    the whole state ([queue], [currentQueueIndex], [currentEpisode] and
    [isPlaying] included) when the index is above the pointer, hence for
    every index at or beyond [queue.length] while the pointer is below
    [queue.length]. *)
Theorem removeFromQueue_out_of_range (index : Z) (s : AudioPlayerState) :
  index < 0 \/ JS.len (queue s) <= index ->
  queue (removeFromQueue index s) = queue s /\
  (currentQueueIndex s < index -> removeFromQueue index s = s) /\
  (JS.len (queue s) <= index -> currentQueueIndex s < JS.len (queue s) ->
     removeFromQueue index s = s).
Proof.
  intros Hout. split; [|split].
  - now apply removeFromQueue_queue_out_of_range.
  - now apply removeFromQueue_noop.
  - intros Hge Hlt. apply removeFromQueue_noop; [assumption|lia].
Qed.

Lemma removeFromQueue_out_of_range_witness :
  removeFromQueue 2 playing_second = playing_second /\
  queue (removeFromQueue (-1) playing_second) = [episode1; episode2].
Proof.
  split.
  - destruct (removeFromQueue_out_of_range 2 playing_second) as (_ & Hnoop & _).
    + right. vm_compute. discriminate.
    + apply Hnoop. reflexivity.
  - destruct (removeFromQueue_out_of_range (-1) playing_second) as (Hq & _).
    + left. lia.
    + exact Hq.
Defined.

(** ** [playNext], [playPrevious] and [handleEnded] *)

Lemma playNext_at_end state prev :
  currentQueueIndex state = JS.len (queue state) - 1 ->
  playNext state prev = Some prev.
Proof.
  intros H. unfold playNext.
  destruct (Z.ltb_spec (currentQueueIndex state) (JS.len (queue state) - 1)); [lia|reflexivity].
Qed.

Lemma playNext_advances state prev :
  -1 <= currentQueueIndex state < JS.len (queue state) - 1 ->
  exists e, JS.get (queue state) (currentQueueIndex state + 1) = Some e /\
            playNext state prev = Some (playEpisode e prev).
Proof.
  intros H. unfold playNext.
  destruct (Z.ltb_spec (currentQueueIndex state) (JS.len (queue state) - 1)); [|lia].
  destruct (get_in_range (queue state) (currentQueueIndex state + 1)) as [e He]; [lia|].
  exists e. now rewrite He.
Qed.

Lemma playPrevious_at_start state prev :
  currentQueueIndex state <= 0 ->
  playPrevious state prev = Some prev.
Proof.
  intros H. unfold playPrevious.
  destruct (Z.gtb_spec (currentQueueIndex state) 0); [lia|reflexivity].
Qed.

Lemma playPrevious_retreats state prev :
  0 < currentQueueIndex state < JS.len (queue state) ->
  exists e, JS.get (queue state) (currentQueueIndex state - 1) = Some e /\
            playPrevious state prev = Some (playEpisode e prev).
Proof.
  intros H. unfold playPrevious.
  destruct (Z.gtb_spec (currentQueueIndex state) 0); [|lia].
  destruct (get_in_range (queue state) (currentQueueIndex state - 1)) as [e He]; [lia|].
  exists e. now rewrite He.
Qed.

(** C6.  [playNext()] at the last position of the queue and
    [playPrevious()] at position 0 or below change nothing (no wraparound);
    anywhere else in the queue each hands the adjacent entry to
    [playEpisode]. *)
Theorem playNext_playPrevious_boundaries (state prev : AudioPlayerState) :
  (currentQueueIndex state = JS.len (queue state) - 1 ->
     playNext state prev = Some prev) /\
  (currentQueueIndex state <= 0 ->
     playPrevious state prev = Some prev) /\
  (-1 <= currentQueueIndex state < JS.len (queue state) - 1 ->
     exists e, JS.get (queue state) (currentQueueIndex state + 1) = Some e /\
               playNext state prev = Some (playEpisode e prev)) /\
  (0 < currentQueueIndex state < JS.len (queue state) ->
     exists e, JS.get (queue state) (currentQueueIndex state - 1) = Some e /\
               playPrevious state prev = Some (playEpisode e prev)).
Proof.
  split; [apply playNext_at_end|].
  split; [apply playPrevious_at_start|].
  split; [apply playNext_advances|apply playPrevious_retreats].
Qed.

Lemma playNext_playPrevious_boundaries_witness :
  playNext playing_second playing_second = Some playing_second /\
  playPrevious initialState initialState = Some initialState /\
  playPrevious playing_second playing_second = Some (playEpisode episode1 playing_second).
Proof.
  split; [|split].
  - apply (proj1 (playNext_playPrevious_boundaries playing_second playing_second)).
    reflexivity.
  - apply (proj1 (proj2 (playNext_playPrevious_boundaries initialState initialState))).
    vm_compute. discriminate.
  - destruct (proj2 (proj2 (proj2
        (playNext_playPrevious_boundaries playing_second playing_second))))
      as (e & He & Hplay).
    + vm_compute. split; reflexivity.
    + vm_compute in He. injection He as <-. exact Hplay.
Defined.

(** [handleEnded] reads the queue and the pointer of its snapshot and
    nothing else of it. *)
Lemma handleEnded_same_reads (state s : AudioPlayerState) :
  queue state = queue s ->
  currentQueueIndex state = currentQueueIndex s ->
  handleEnded state s = handleEnded s s.
Proof. intros Hq Hi. unfold handleEnded, playNext. now rewrite Hq, Hi. Qed.

(** With a handler whose snapshot shows the queue and the pointer of the
    current state (the handler of any render in which the pointer or the
    length of the queue changed, and of every render after it until the
    queue changes again), [handleEnded()] stops at the last position, queue
    and pointer as they were, and before it makes the next entry of the
    queue the current episode with [isPlaying] true and the queue as it
    was; the pointer names a slot with that id, the next slot itself unless
    an earlier slot already holds the id. *)
Lemma handleEnded_current_snapshot (state s : AudioPlayerState) :
  queue state = queue s ->
  currentQueueIndex state = currentQueueIndex s ->
  (currentQueueIndex s = JS.len (queue s) - 1 ->
     handleEnded state s = Some (setIsPlaying false s) /\
     queue (setIsPlaying false s) = queue s /\
     currentQueueIndex (setIsPlaying false s) = currentQueueIndex s /\
     isPlaying (setIsPlaying false s) = false) /\
  (-1 <= currentQueueIndex s < JS.len (queue s) - 1 ->
     exists e s',
       JS.get (queue s) (currentQueueIndex s + 1) = Some e /\
       handleEnded state s = Some s' /\
       s' = playEpisode e (setIsPlaying false s) /\
       currentEpisode s' = Some e /\
       isPlaying s' = true /\
       queue s' = queue s /\
       (exists q, JS.get (queue s') (currentQueueIndex s') = Some q /\ id q = id e) /\
       ((forall (m : nat) q', (m < Z.to_nat (currentQueueIndex s + 1))%nat ->
            queue s !! m = Some q' -> id q' <> id e) ->
        currentQueueIndex s' = currentQueueIndex s + 1)).
Proof.
  intros Hq Hi. rewrite (handleEnded_same_reads state s Hq Hi). clear state Hq Hi.
  split.
  - intros Hlast. unfold handleEnded.
    destruct (Z.ltb_spec (currentQueueIndex s) (JS.len (queue s) - 1)); [lia|].
    repeat split.
  - intros Hrange. unfold handleEnded.
    destruct (Z.ltb_spec (currentQueueIndex s) (JS.len (queue s) - 1)); [|lia].
    destruct (playNext_advances s (setIsPlaying false s) Hrange) as (e & He & Hnext).
    exists e, (playEpisode e (setIsPlaying false s)).
    split; [assumption|]. split; [assumption|]. split; [reflexivity|].
    apply get_Some in He as [Hpos He].
    destruct (playEpisode_present e (setIsPlaying false s))
      as (n & q & Hq & Hid & Hleast & ->).
    { exists e. split; [|reflexivity]. apply list_elem_of_lookup. simpl. eauto. }
    simpl in *. repeat split.
    + exists q. now rewrite get_nat.
    + intros Hnodup.
      destruct (Nat.lt_trichotomy n (Z.to_nat (currentQueueIndex s + 1)))
        as [Hlt|[Heq|Hgt]].
      * exfalso. now apply (Hnodup n q).
      * lia.
      * exfalso. now apply (Hleast _ e Hgt).
Qed.

(** C7.  [handleEnded()] does not always advance to the next entry of the
    queue.  The handler is memoised on the pointer and the length of the
    queue only.  With [[episode1; episode2]] rendered and [episode1]
    playing, a batch that removes [episode2] and adds [episode3] changes
    neither, so the handler of the earlier render stays in use; the next
    entry of the queue is then [episode3], yet at the end of the media the
    handler plays [episode2], which is no longer queued, and [playEpisode]
    appends it: the queue becomes [[episode1; episode3; episode2]] with the
    pointer on its last slot. *)
Theorem handleEnded_plays_removed_entry :
  handleEnded_deps playing_first = handleEnded_deps entry_replaced /\
  handleEnded_snapshot playing_first entry_replaced = playing_first /\
  queue playing_first = [episode1; episode2] /\
  queue entry_replaced = [episode1; episode3] /\
  currentQueueIndex entry_replaced = 0 /\
  JS.get (queue entry_replaced) (currentQueueIndex entry_replaced + 1) = Some episode3 /\
  exists s',
    handleEnded playing_first entry_replaced = Some s' /\
    currentEpisode s' = Some episode2 /\
    isPlaying s' = true /\
    queue s' = [episode1; episode3; episode2] /\
    currentQueueIndex s' = 2.
Proof.
  repeat (split; [reflexivity|]).
  eexists. split; [reflexivity|]. repeat split.
Qed.

(** ** The queue/pointer invariant *)

Lemma pointer_tracks_current_range s :
  pointer_tracks_current s -> pointer_in_range s.
Proof.
  intros [Hnone Hsome]. unfold pointer_in_range.
  destruct (currentEpisode s) as [e|] eqn:Hcur.
  - destruct (Hsome e eq_refl) as (q & Hq & _).
    apply get_Some in Hq as [Hpos Hq]. apply lookup_lt_Some in Hq.
    unfold JS.len. lia.
  - rewrite (Hnone eq_refl). unfold JS.len. lia.
Qed.

Lemma pointer_tracks_current_invariant s :
  pointer_tracks_current s -> queue_invariant s.
Proof.
  intros Hinv. pose proof (pointer_tracks_current_range s Hinv) as Hrange.
  destruct Hinv as [Hnone Hsome]. split; [exact Hsome|].
  intros Hempty. unfold pointer_in_range, JS.len in Hrange.
  rewrite Hempty in Hrange. simpl in Hrange.
  destruct (currentEpisode s) as [e|] eqn:Hcur.
  - destruct (Hsome e eq_refl) as (q & Hq & _).
    rewrite Hempty in Hq. apply get_Some in Hq as [_ Hq]. discriminate.
  - split; [reflexivity|]. lia.
Qed.

Lemma initialState_tracks : pointer_tracks_current initialState.
Proof. split; [reflexivity|discriminate]. Qed.

Lemma playEpisode_tracks e s : pointer_tracks_current (playEpisode e s).
Proof.
  destruct (in_queue_dec e s) as [Hin|Hfresh].
  - destruct (playEpisode_present e s Hin) as (n & q & Hq & Hid & _ & ->).
    split; simpl; [discriminate|].
    intros e' [= <-]. exists q. now rewrite get_nat.
  - rewrite (playEpisode_fresh e s Hfresh).
    split; simpl; [discriminate|].
    intros e' [= <-]. exists e. split; [|reflexivity].
    unfold JS.len. rewrite get_nat. now apply list_lookup_middle.
Qed.

Lemma addToQueue_tracks e s :
  pointer_tracks_current s -> pointer_tracks_current (addToQueue e s).
Proof.
  intros [Hnone Hsome]. split; simpl; [exact Hnone|].
  intros e' He'. destruct (Hsome e' He') as (q & Hq & Hid).
  exists q. split; [|exact Hid].
  apply get_Some in Hq as [Hpos Hq]. apply get_Some. split; [exact Hpos|].
  rewrite lookup_app_l; [exact Hq|]. now apply lookup_lt_Some in Hq.
Qed.

(** Removing a slot below the pointer leaves the decremented pointer on the
    entry it named. *)
Lemma get_delete_below {A : Type} (a : list A) (i c : Z) :
  0 <= i < c ->
  JS.get (take (Z.to_nat i) a ++ drop (S (Z.to_nat i)) a) (c - 1) = JS.get a c.
Proof.
  intros Hi. rewrite <- delete_take_drop. unfold JS.get.
  destruct (Z.ltb_spec (c - 1) 0); [lia|]. destruct (Z.ltb_spec c 0); [lia|].
  rewrite list_lookup_delete_ge by lia. f_equal. lia.
Qed.

Lemma get_delete_above {A : Type} (a : list A) (i c : Z) :
  0 <= c < i ->
  JS.get (take (Z.to_nat i) a ++ drop (S (Z.to_nat i)) a) c = JS.get a c.
Proof.
  intros Hi. rewrite <- delete_take_drop. unfold JS.get.
  destruct (Z.ltb_spec c 0); [lia|].
  now rewrite list_lookup_delete_lt by lia.
Qed.

Lemma removeFromQueue_tracks i s :
  0 <= i ->
  pointer_tracks_current s -> pointer_tracks_current (removeFromQueue i s).
Proof.
  intros Hi Hinv. pose proof (pointer_tracks_current_range s Hinv) as Hrange.
  unfold pointer_in_range in Hrange.
  destruct (Z.lt_ge_cases i (JS.len (queue s))) as [Hin|Hout].
  - pose proof (removeFromQueue_queue_in_range i s ltac:(lia)) as Hq.
    destruct (removeFromQueue_pointer i s) as (Hlt & Heq & Hgt).
    destruct Hinv as [Hnone Hsome].
    destruct (Z.lt_trichotomy i (currentQueueIndex s)) as [H|[H|H]].
    + destruct (Hlt H) as (Hidx & Hcur & _). split.
      * rewrite Hcur. intros Hn. specialize (Hnone Hn). lia.
      * rewrite Hcur, Hidx, Hq. intros e He.
        destruct (Hsome e He) as (q & Hget & Hid). exists q.
        split; [|exact Hid]. rewrite get_delete_below; [exact Hget|lia].
    + destruct (Heq H) as (Hcur & _ & Hidx). split.
      * intros _. exact Hidx.
      * rewrite Hcur. discriminate.
    + destruct (Hgt ltac:(lia)) as (Hidx & Hcur & _). split.
      * rewrite Hcur, Hidx. exact Hnone.
      * rewrite Hcur, Hidx, Hq. intros e He.
        destruct (Hsome e He) as (q & Hget & Hid). exists q.
        split; [|exact Hid]. rewrite get_delete_above; [exact Hget|].
        apply get_Some in Hget. lia.
  - rewrite removeFromQueue_noop; [exact Hinv|now right|lia].
Qed.

Lemma togglePlayPause_tracks s :
  pointer_tracks_current s -> pointer_tracks_current (togglePlayPause s).
Proof. intros H. exact H. Qed.

Lemma clearQueue_tracks s : pointer_tracks_current (clearQueue s).
Proof. split; [reflexivity|discriminate]. Qed.

(** From a state that satisfies the invariant every operation has a result,
    and the result satisfies it again. *)
Lemma dispatch_tracks op s :
  nonneg_index op -> pointer_tracks_current s ->
  exists s', dispatch op s = Some s' /\ pointer_tracks_current s'.
Proof.
  intros Hop Hinv. pose proof (pointer_tracks_current_range s Hinv) as Hrange.
  unfold pointer_in_range in Hrange.
  destruct op as [e|e|i| | | |]; simpl in *.
  - eexists. split; [reflexivity|apply playEpisode_tracks].
  - eexists. split; [reflexivity|now apply addToQueue_tracks].
  - eexists. split; [reflexivity|now apply removeFromQueue_tracks].
  - destruct (Z.eq_dec (currentQueueIndex s) (JS.len (queue s) - 1)) as [Hlast|Hmore].
    + rewrite playNext_at_end by assumption. eauto.
    + destruct (playNext_advances s s) as (e & _ & ->); [lia|].
      eexists. split; [reflexivity|apply playEpisode_tracks].
  - destruct (Z.le_gt_cases (currentQueueIndex s) 0) as [Hfirst|Hmore].
    + rewrite playPrevious_at_start by assumption. eauto.
    + destruct (playPrevious_retreats s s) as (e & _ & ->); [lia|].
      eexists. split; [reflexivity|apply playEpisode_tracks].
  - eexists. split; [reflexivity|now apply togglePlayPause_tracks].
  - eexists. split; [reflexivity|apply clearQueue_tracks].
Qed.

Lemma reachable_nonneg_tracks s :
  reachable_nonneg s -> pointer_tracks_current s.
Proof.
  induction 1 as [|op s s' _ IH Hop Hstep].
  - apply initialState_tracks.
  - destruct (dispatch_tracks op s Hop IH) as (s'' & Hs'' & Hinv).
    rewrite Hstep in Hs''. now injection Hs'' as ->.
Qed.

(** C1, as stated, fails: [removeFromQueue] accepts a negative index.  From
    the initial state [removeFromQueue(-5)] leaves an empty queue with the
    pointer at -2; and with [episode2] playing at index 1,
    [removeFromQueue(-1)] leaves the pointer on [episode1]. *)
Lemma queue_invariant_broken_by_negative_index :
  (reachable (removeFromQueue (-5) initialState) /\
   queue (removeFromQueue (-5) initialState) = [] /\
   currentQueueIndex (removeFromQueue (-5) initialState) = -2 /\
   ~ queue_invariant (removeFromQueue (-5) initialState)) /\
  (reachable (removeFromQueue (-1) playing_second) /\
   currentEpisode (removeFromQueue (-1) playing_second) = Some episode2 /\
   JS.get (queue (removeFromQueue (-1) playing_second))
          (currentQueueIndex (removeFromQueue (-1) playing_second)) = Some episode1 /\
   ~ queue_invariant (removeFromQueue (-1) playing_second)).
Proof.
  split.
  - split.
    { apply (reachable_step (RemoveFromQueue (-5)) initialState);
        [apply reachable_init|reflexivity]. }
    repeat split. intros [_ Hempty].
    destruct (Hempty eq_refl) as [_ Hidx]. discriminate Hidx.
  - split.
    { apply (reachable_step (RemoveFromQueue (-1)) playing_second); [|reflexivity].
      apply playing_second_reachable. }
    repeat split. intros [Hcur _].
    destruct (Hcur episode2 eq_refl) as (q & Hq & Hid).
    vm_compute in Hq. injection Hq as <-. discriminate Hid.
Qed.

(** C1, amended.  In every state reached from the initial state by
    [playEpisode], [addToQueue], [removeFromQueue] with a non-negative
    index, [playNext], [playPrevious], [togglePlayPause] and [clearQueue]:
    a non-null [currentEpisode] has its id in the slot [currentQueueIndex]
    names, and an empty queue comes with a null [currentEpisode] and the
    pointer at -1.  Every such operation has a result there. *)
Theorem queue_invariant_reachable (s : AudioPlayerState) :
  reachable_nonneg s ->
  queue_invariant s /\
  forall op, nonneg_index op -> is_Some (dispatch op s).
Proof.
  intros Hreach. apply reachable_nonneg_tracks in Hreach. split.
  - now apply pointer_tracks_current_invariant.
  - intros op Hop. destruct (dispatch_tracks op s Hop Hreach) as (s' & -> & _). eauto.
Qed.

Lemma queue_invariant_reachable_witness :
  queue_invariant playing_second /\
  is_Some (dispatch PlayPrevious playing_second).
Proof.
  destruct (queue_invariant_reachable playing_second playing_second_reachable_nonneg)
    as [Hinv Hdef].
  split; [exact Hinv|]. apply Hdef. exact I.
Defined.

(** ** Numbers *)

Lemma SFcompare_antisym x y c :
  SFcompare x y = Some c -> SFcompare y x = Some (CompOpp c).
Proof.
  destruct x as [sx|sx| |sx mx ex], y as [sy|sy| |sy my ey]; simpl;
    try discriminate;
    try (intros [= <-]; try destruct sx; try destruct sy; reflexivity).
  intros [= <-]. f_equal.
  destruct sx, sy; try reflexivity;
    rewrite (Z.compare_antisym ex ey); destruct (ex ?= ey); simpl; try reflexivity.
  - rewrite CompOpp_involutive. exact (Pos.compare_cont_antisym my mx Eq).
  - symmetry. exact (Pos.compare_cont_antisym mx my Eq).
Qed.

Lemma SFcompare_refl x : x <> JS.NaN -> SFcompare x x = Some Eq.
Proof.
  destruct x as [s|s| |s m e]; simpl; intros H; try reflexivity.
  - now destruct s.
  - contradiction.
  - rewrite Z.compare_refl.
    replace (PosDef.Pos.compare_cont Eq m m) with Eq
      by (symmetry; exact (Pos.compare_cont_refl m Eq)).
    now destruct s.
Qed.

Lemma SFcompare_defined x y :
  x <> JS.NaN -> y <> JS.NaN -> exists c, SFcompare x y = Some c.
Proof. destruct x, y; simpl; intros Hx Hy; try contradiction; eauto. Qed.

Lemma le_not_NaN x y : JS.le x y = true -> x <> JS.NaN /\ y <> JS.NaN.
Proof.
  unfold JS.le, SFleb. destruct x, y; simpl; try discriminate; split; discriminate.
Qed.

Lemma le_refl x : x <> JS.NaN -> JS.le x x = true.
Proof. intros H. unfold JS.le, SFleb. now rewrite SFcompare_refl. Qed.

Lemma le_of_compare x y c :
  SFcompare x y = Some c -> c <> Gt -> JS.le x y = true.
Proof. intros H Hc. unfold JS.le, SFleb. rewrite H. now destruct c. Qed.

(** [Math.min(d, x)] is [d] or [x] and never above [d]. *)
Lemma Math_min_le_l d x :
  d <> JS.NaN -> x <> JS.NaN ->
  JS.Math_min d x <> JS.NaN /\ JS.le (JS.Math_min d x) d = true.
Proof.
  intros Hd Hx. destruct (SFcompare_defined d x Hd Hx) as [c Hc].
  assert (Hx_le : c <> Lt -> JS.le x d = true).
  { intros Hne. apply (le_of_compare x d (CompOpp c)).
    - now apply SFcompare_antisym.
    - destruct c; simpl; congruence. }
  unfold JS.Math_min. rewrite Hc. destruct c.
  - destruct d as [[]| | |]; (split; [assumption|]);
      solve [now apply le_refl | now apply Hx_le].
  - split; [assumption|now apply le_refl].
  - split; [assumption|now apply Hx_le].
Qed.

(** [Math.max(0, m)] is [0] or [m] and never below [0]. *)
Lemma Math_max_zero m :
  m <> JS.NaN ->
  JS.le (JS.lit 0) (JS.Math_max (JS.lit 0) m) = true /\
  (JS.Math_max (JS.lit 0) m = JS.lit 0 \/ JS.Math_max (JS.lit 0) m = m).
Proof.
  intros Hm. change (JS.lit 0) with (S754_zero false).
  destruct (SFcompare_defined (S754_zero false) m) as [c Hc]; [discriminate|assumption|].
  unfold JS.Math_max. rewrite Hc. destruct c.
  - split; [reflexivity|now left].
  - split; [|now right]. now apply (le_of_compare _ _ Lt).
  - split; [reflexivity|now left].
Qed.

Lemma clamp_in_range d x :
  JS.le (JS.lit 0) d = true -> x <> JS.NaN ->
  JS.le (JS.lit 0) (JS.Math_max (JS.lit 0) (JS.Math_min d x)) = true /\
  JS.le (JS.Math_max (JS.lit 0) (JS.Math_min d x)) d = true.
Proof.
  intros Hd Hx. destruct (le_not_NaN _ _ Hd) as [_ Hd'].
  destruct (Math_min_le_l d x Hd' Hx) as [Hm Hle].
  destruct (Math_max_zero (JS.Math_min d x) Hm) as [Hlow [Heq|Heq]];
    (split; [exact Hlow|]); rewrite Heq; assumption.
Qed.

(** ** [skipTime] *)

Lemma skipTime_known amount state h audio :
  audioRef h = Some audio ->
  JS.truthy (duration state) = true ->
  skipTime amount state h =
  seek (JS.Math_max (JS.lit 0)
          (JS.Math_min (duration state) (JS.add (Audio.currentTime audio) amount))) h.
Proof. intros Ha Hd. unfold skipTime. now rewrite Ha, Hd. Qed.

Lemma skipTime_unknown amount state h :
  JS.truthy (duration state) = false -> skipTime amount state h = h.
Proof. intros Hd. unfold skipTime. rewrite Hd. now destruct (audioRef h). Qed.

Lemma seek_mounted t h audio :
  audioRef h = Some audio ->
  currentTime (store (seek t h)) = t /\
  audioRef (seek t h) = Some (Audio.set_currentTime t audio).
Proof. intros Ha. unfold seek. rewrite Ha. now split. Qed.

(** C3, as stated, fails while the duration is unknown.  With the element
    at 10 s and [state.duration] 0 or [NaN], [skipTime(5)] leaves
    [currentTime] at 10: neither 15 (lower bound only) nor 0 (clamped to
    [[0, 0]]). *)
Lemma skipTime_unknown_duration_stays :
  (JS.truthy (duration (store (mockHook (JS.lit 10) (JS.lit 0)))) = false /\
   currentTime (store (skipTime (JS.lit 5)
                         (store (mockHook (JS.lit 10) (JS.lit 0)))
                         (mockHook (JS.lit 10) (JS.lit 0)))) = JS.lit 10 /\
   skipTime_claimed (JS.lit 5) (JS.lit 0) (JS.lit 10) = JS.lit 15 /\
   JS.lit 10 <> JS.lit 15 /\ JS.lit 10 <> JS.lit 0) /\
  (JS.truthy (duration (store (mockHook (JS.lit 10) JS.NaN))) = false /\
   currentTime (store (skipTime (JS.lit 5)
                         (store (mockHook (JS.lit 10) JS.NaN))
                         (mockHook (JS.lit 10) JS.NaN))) = JS.lit 10 /\
   skipTime_claimed (JS.lit 5) JS.NaN (JS.lit 10) = JS.lit 15).
Proof.
  split; [split; [reflexivity|split; [reflexivity|split; [reflexivity|split]]]|];
    [discriminate|discriminate|].
  split; [reflexivity|split; reflexivity].
Qed.

(** C3, amended.  With an element mounted and a known duration (neither 0
    nor [NaN]), [skipTime(delta)] sets [currentTime], in the state and on
    the element, to [max(0, min(duration, element.currentTime + delta))],
    a value of [[0, duration]] when the duration is not negative and the
    sum is a number.  While the duration is unknown [skipTime] does
    nothing.  With duration 180: from 170, [skipTime(30)] gives 180, and
    from 10, [skipTime(-30)] gives 0. *)
Theorem skipTime_clamps :
  (forall (amount : JS.number) (state : AudioPlayerState) (h : Hook) (audio : Audio.t),
      audioRef h = Some audio ->
      (JS.truthy (duration state) = true ->
         currentTime (store (skipTime amount state h)) =
           JS.Math_max (JS.lit 0)
             (JS.Math_min (duration state) (JS.add (Audio.currentTime audio) amount)) /\
         audioRef (skipTime amount state h) =
           Some (Audio.set_currentTime (currentTime (store (skipTime amount state h))) audio) /\
         (JS.le (JS.lit 0) (duration state) = true ->
          JS.add (Audio.currentTime audio) amount <> JS.NaN ->
          JS.le (JS.lit 0) (currentTime (store (skipTime amount state h))) = true /\
          JS.le (currentTime (store (skipTime amount state h))) (duration state) = true)) /\
      (JS.truthy (duration state) = false -> skipTime amount state h = h)) /\
  (currentTime (store (skipTime (JS.lit 30)
                         (store (mockHook (JS.lit 170) (JS.lit 180)))
                         (mockHook (JS.lit 170) (JS.lit 180)))) = JS.lit 180 /\
   JS.le (JS.lit 180) (JS.lit 180) = true) /\
  currentTime (store (skipTime (JS.lit (-30))
                        (store (mockHook (JS.lit 10) (JS.lit 180)))
                        (mockHook (JS.lit 10) (JS.lit 180)))) = JS.lit 0.
Proof.
  split; [|split; [split|]]; try reflexivity.
  intros amount state h audio Ha. split.
  - intros Hd. rewrite (skipTime_known amount state h audio Ha Hd).
    destruct (seek_mounted
                (JS.Math_max (JS.lit 0)
                   (JS.Math_min (duration state) (JS.add (Audio.currentTime audio) amount)))
                h audio Ha) as [-> ->].
    split; [reflexivity|]. split; [reflexivity|].
    intros Hpos Hsum. now apply clamp_in_range.
  - apply skipTime_unknown.
Qed.

Lemma skipTime_clamps_witness :
  JS.le (JS.lit 0)
    (currentTime (store (skipTime (JS.lit 30)
                           (store (mockHook (JS.lit 170) (JS.lit 180)))
                           (mockHook (JS.lit 170) (JS.lit 180))))) = true /\
  JS.le (currentTime (store (skipTime (JS.lit 30)
                               (store (mockHook (JS.lit 170) (JS.lit 180)))
                               (mockHook (JS.lit 170) (JS.lit 180)))))
        (JS.lit 180) = true.
Proof.
  destruct (proj1 skipTime_clamps (JS.lit 30)
              (store (mockHook (JS.lit 170) (JS.lit 180)))
              (mockHook (JS.lit 170) (JS.lit 180))
              (mockAudio (JS.lit 170) (JS.lit 180)) eq_refl) as [Hknown _].
  destruct (Hknown eq_refl) as (_ & _ & Hrange).
  apply Hrange; [reflexivity|]. vm_compute. discriminate.
Defined.

(** ** Rejected play requests *)

Lemma reconcile_request state audioRef req :
  snd (reconcile state audioRef) = Some req ->
  req = {| onRejected := setIsPlaying false |}.
Proof.
  unfold reconcile. destruct audioRef as [audio|]; [|discriminate].
  destruct (isPlaying state); [|discriminate].
  destruct (currentEpisode state) as [ep|]; [|discriminate].
  destruct (_ && _); [|discriminate].
  simpl. now intros [= <-].
Qed.

Lemma reconcile_issues state audio ep :
  isPlaying state = true ->
  currentEpisode state = Some ep ->
  JS.includes (Audio.src audio) (audioUrl ep) = true ->
  2 <= Audio.readyState audio ->
  snd (reconcile state (Some audio)) = Some {| onRejected := setIsPlaying false |}.
Proof.
  intros Hp He Hsrc Hready. unfold reconcile. rewrite Hp, He, Hsrc.
  destruct (Z.geb_spec (Audio.readyState audio) 2); [reflexivity|lia].
Qed.

(** C9.  Each of the two places that call [audio.play()] attaches a
    rejection handler, and when the platform rejects the request the handler
    leaves [isPlaying] false, the rest of the state as it found it: for the
    one-shot metadata-ready listener of a bind, which always asks to play,
    and for the reconciliation effect, which asks when [isPlaying] is set, an
    episode is current, the element's source contains its URL and the
    element is ready. *)
Theorem rejected_play_forces_not_playing :
  (forall (episodeProgress : gmap string JS.number) (episode : Episode)
          (audio : Audio.t) (prev : AudioPlayerState),
      settle Rejected (snd (bind_handleLoadedMetadata episodeProgress episode audio)) prev
        = setIsPlaying false prev /\
      isPlaying
        (settle Rejected (snd (bind_handleLoadedMetadata episodeProgress episode audio)) prev)
        = false) /\
  (forall (state : AudioPlayerState) (audioRef : option Audio.t) (req : PlayRequest)
          (prev : AudioPlayerState),
      snd (reconcile state audioRef) = Some req ->
      settle Rejected req prev = setIsPlaying false prev /\
      isPlaying (settle Rejected req prev) = false) /\
  (forall (state : AudioPlayerState) (audio : Audio.t) (ep : Episode),
      isPlaying state = true ->
      currentEpisode state = Some ep ->
      JS.includes (Audio.src audio) (audioUrl ep) = true ->
      2 <= Audio.readyState audio ->
      is_Some (snd (reconcile state (Some audio)))).
Proof.
  split; [|split].
  - intros. split; reflexivity.
  - intros state audioRef req prev Hreq.
    rewrite (reconcile_request state audioRef req Hreq). split; reflexivity.
  - intros state audio ep Hp He Hsrc Hready.
    rewrite (reconcile_issues state audio ep Hp He Hsrc Hready). eauto.
Qed.

Lemma rejected_play_forces_not_playing_witness :
  exists req,
    snd (reconcile (store (mockHook (JS.lit 0) (JS.lit 180)))
                   (audioRef (mockHook (JS.lit 0) (JS.lit 180)))) = Some req /\
    isPlaying (store (mockHook (JS.lit 0) (JS.lit 180))) = true /\
    isPlaying (settle Rejected req (store (mockHook (JS.lit 0) (JS.lit 180)))) = false.
Proof.
  destruct (proj2 (proj2 rejected_play_forces_not_playing)
              (store (mockHook (JS.lit 0) (JS.lit 180)))
              (mockAudio (JS.lit 0) (JS.lit 180)) episode1) as [req Hreq];
    [reflexivity|reflexivity|reflexivity|vm_compute; discriminate|].
  exists req. split; [exact Hreq|]. split; [reflexivity|].
  apply (proj1 (proj2 rejected_play_forces_not_playing)
           (store (mockHook (JS.lit 0) (JS.lit 180)))
           (audioRef (mockHook (JS.lit 0) (JS.lit 180))) req
           (store (mockHook (JS.lit 0) (JS.lit 180))) Hreq).
Defined.

(** ** The progress debounce *)

Lemma debounce0_inv : debounce_inv debounce0.
Proof.
  split; [|split; [exact I|split; [constructor|split; [constructor|discriminate]]]].
  intros k t Hk. simpl in Hk. now rewrite lookup_empty in Hk.
Qed.

(** After [clearTimeout(debouncedUpdateTimeRef.current)] nothing is pending. *)
Lemma clearTimeout_ref_empties w k :
  debounce_inv w ->
  pending (clearTimeout (debouncedUpdateTimeRef w) (timers w)) !! k = None /\
  fresh (clearTimeout (debouncedUpdateTimeRef w) (timers w)) = fresh (timers w).
Proof.
  intros (Hpend & _). unfold clearTimeout.
  destruct (debouncedUpdateTimeRef w) as [r|] eqn:Href; simpl.
  - split; [|reflexivity].
    destruct (delete r (pending (timers w)) !! k) as [t|] eqn:Hk; [|reflexivity].
    apply lookup_delete_Some in Hk as [Hne Hk].
    destruct (Hpend k t Hk) as [[= ->] _]. contradiction.
  - split; [|reflexivity].
    destruct (pending (timers w) !! k) as [t|] eqn:Hk; [|reflexivity].
    destruct (Hpend k t Hk) as [[=] _].
Qed.

Lemma updateTimeProgress_inv given i v w :
  debounce_inv w -> debounce_inv (updateTimeProgress given i v w).
Proof.
  intros Hinv. unfold updateTimeProgress.
  destruct (String.eqb i "" || negb given); [exact Hinv|].
  pose proof (fun k => proj1 (clearTimeout_ref_empties w k Hinv)) as Hnone.
  pose proof (proj2 (clearTimeout_ref_empties w 0%nat Hinv)) as Hfresh.
  destruct Hinv as (_ & Hshape & Hpast & Hseen & _).
  unfold setTimeout. simpl. rewrite Hfresh.
  split; [|split; [|split; [|split]]].
  - intros k t Hk. simpl in Hk.
    apply lookup_insert_Some in Hk as [[<- <-]|[_ Hk]].
    + split; [reflexivity|]. exists (history w). simpl.
      now replace (now w + 2000 - 2000) with (now w) by lia.
    + now rewrite Hnone in Hk.
  - simpl. auto.
  - simpl. constructor; [simpl; lia|exact Hpast].
  - simpl. constructor; [simpl; lia|].
    eapply Forall_impl; [exact Hseen|]. simpl. intros o Ho. lia.
  - simpl. intros t k i' v' rest [= <- <- <- <- _].
    apply lookup_insert_eq.
Qed.

Lemma step_inv given ev w w' :
  debounce_inv w -> step given ev w = Some w' -> debounce_inv w'.
Proof.
  intros Hinv. destruct ev as [state h|ms|k]; simpl.
  - intros [= <-]. unfold handleTimeUpdate.
    destruct (audioRef h); [|exact Hinv].
    destruct (currentEpisode state); [|exact Hinv].
    simpl. now apply updateTimeProgress_inv.
  - destruct (Z.leb_spec 0 ms); [|discriminate]. intros [= <-].
    destruct Hinv as (Hpend & Hshape & Hpast & Hseen & Hhead).
    split; [exact Hpend|]. split; [exact Hshape|].
    split; [|split; [exact Hseen|exact Hhead]].
    simpl. eapply Forall_impl; [exact Hpast|]. simpl. intros o Ho. lia.
  - destruct (pending (timers w) !! k) as [t|] eqn:Hk; [|discriminate].
    destruct (Z.leb_spec (due t) (now w)); [|discriminate]. intros [= <-].
    destruct Hinv as (Hpend & Hshape & Hpast & Hseen & _).
    destruct (Hpend k t Hk) as (Href & rest & Hhist).
    split; [|split; [|split; [|split]]]; simpl; [| | | |discriminate].
    + intros k' t' Hk'. apply lookup_delete_Some in Hk' as [Hne Hk'].
      destruct (Hpend k' t' Hk') as [Href' _]. congruence.
    + split; [exact Hshape|]. exists (due t - 2000), rest. split; [exact Hhist|lia].
    + constructor; [simpl; lia|exact Hpast].
    + constructor; [|exact Hseen]. simpl.
      rewrite Hhist in Hseen. now inversion Hseen.
Qed.

Lemma run_inv given evs w w' :
  debounce_inv w -> run given evs w = Some w' -> debounce_inv w'.
Proof.
  revert w. induction evs as [|ev evs IH]; intros w Hinv; simpl.
  - now intros [= <-].
  - destruct (step given ev w) as [w1|] eqn:Hstep; [|discriminate].
    apply IH. now apply (step_inv given ev w).
Qed.

(** *** What the shape of a history gives *)

Lemma debounced_stamps o r :
  debounced (o :: r) -> Forall (fun o' => stamp o' <= stamp o) r.
Proof.
  destruct o as [t k i v|tw k i v]; simpl.
  - now intros (_ & Hst & _).
  - intros (Hr & tk & r' & -> & Hlate).
    destruct Hr as (_ & Hst & _).
    constructor; [simpl; lia|].
    eapply Forall_impl; [exact Hst|]. simpl. intros o Ho. lia.
Qed.

(** An entry is not older than the entries after it. *)
Lemma debounced_ordered h (a b : nat) oa ob :
  debounced h -> (a < b)%nat ->
  h !! a = Some oa -> h !! b = Some ob -> stamp ob <= stamp oa.
Proof.
  revert a b. induction h as [|o r IH]; intros a b Hd Hab Ha Hb; [discriminate|].
  assert (Hr : debounced r) by (destruct o; simpl in Hd; tauto).
  destruct b as [|b]; [lia|]. simpl in Hb.
  destruct a as [|a]; simpl in Ha.
  - injection Ha as ->.
    pose proof (debounced_stamps _ _ Hd) as Hst.
    rewrite Forall_lookup in Hst. exact (Hst b ob Hb).
  - apply (IH a b); [assumption|lia|assumption|assumption].
Qed.

(** A tick carries a handle above the handles of the entries after it. *)
Lemma debounced_fresh_handle h (a b : nat) t k i v ob :
  debounced h -> (a < b)%nat ->
  h !! a = Some (Ticked t k i v) -> h !! b = Some ob -> (handle_of ob < k)%nat.
Proof.
  revert a b. induction h as [|o r IH]; intros a b Hd Hab Ha Hb; [discriminate|].
  assert (Hr : debounced r) by (destruct o; simpl in Hd; tauto).
  destruct b as [|b]; [lia|]. simpl in Hb.
  destruct a as [|a]; simpl in Ha.
  - injection Ha as ->. destruct Hd as (_ & _ & Hh).
    rewrite Forall_lookup in Hh. exact (Hh b ob Hb).
  - apply (IH a b); [assumption|lia|assumption|assumption].
Qed.

(** A write sits directly on the tick that scheduled it. *)
Lemma debounced_write h (n : nat) tw k i v :
  debounced h -> h !! n = Some (Wrote tw k i v) ->
  exists tk, h !! S n = Some (Ticked tk k i v) /\ tk + 2000 <= tw.
Proof.
  revert n. induction h as [|o r IH]; intros n Hd Hn; [discriminate|].
  assert (Hr : debounced r) by (destruct o; simpl in Hd; tauto).
  destruct n as [|n]; simpl in Hn.
  - injection Hn as ->. destruct Hd as (_ & tk & r' & -> & Hlate).
    exists tk. split; [reflexivity|exact Hlate].
  - now apply IH.
Qed.

Lemma debounced_tick_unique h (a b : nat) t t' k i i' v v' :
  debounced h ->
  h !! a = Some (Ticked t k i v) -> h !! b = Some (Ticked t' k i' v') -> a = b.
Proof.
  intros Hd Ha Hb.
  destruct (Nat.lt_trichotomy a b) as [Hlt|[Heq|Hgt]]; [|assumption|].
  - pose proof (debounced_fresh_handle h a b _ _ _ _ _ Hd Hlt Ha Hb) as H.
    simpl in H. lia.
  - pose proof (debounced_fresh_handle h b a _ _ _ _ _ Hd Hgt Hb Ha) as H.
    simpl in H. lia.
Qed.

(** A tick that another tick follows in less than 2000 ms is never written. *)
Lemma debounced_superseded h (a b n : nat) t1 k1 i1 v1 t2 k2 i2 v2 tw i v :
  debounced h -> (b < a)%nat ->
  h !! a = Some (Ticked t1 k1 i1 v1) ->
  h !! b = Some (Ticked t2 k2 i2 v2) ->
  t2 < t1 + 2000 ->
  h !! n <> Some (Wrote tw k1 i v).
Proof.
  intros Hd Hba Ha Hb Hsoon Hn.
  destruct (debounced_write h n tw k1 i v Hd Hn) as (tk & Htick & Hlate).
  pose proof (debounced_tick_unique h _ _ _ _ _ _ _ _ _ Hd Htick Ha) as <-.
  rewrite Htick in Ha. injection Ha as -> _ _.
  assert (b <> n) by (intros ->; rewrite Hn in Hb; discriminate).
  pose proof (debounced_ordered h b n _ _ Hd ltac:(lia) Hb Hn) as Hord.
  simpl in Hord. lia.
Qed.

(** *** The history records the ticks *)

Lemma updateTimeProgress_history i v w :
  i <> ""%string ->
  history (updateTimeProgress true i v w) =
  Ticked (now w) (fresh (timers w)) i v :: history w.
Proof.
  intros Hi. unfold updateTimeProgress.
  apply String.eqb_neq in Hi. rewrite Hi. simpl.
  now destruct (debouncedUpdateTimeRef w).
Qed.

Lemma step_scheduled ev w w' :
  active_tick ev -> step true ev w = Some w' ->
  omap scheduled (rev (history w')) =
  omap scheduled (rev (history w)) ++ option_list (tick_of ev).
Proof.
  destruct ev as [state h|ms|k]; simpl.
  - intros [[audio Ha] (ep & He & Hid)] [= <-].
    unfold handleTimeUpdate. rewrite Ha, He. simpl.
    rewrite updateTimeProgress_history by assumption.
    simpl. now rewrite omap_app.
  - intros _. destruct (0 <=? ms); [|discriminate]. intros [= <-].
    simpl. now rewrite app_nil_r.
  - intros _. destruct (pending (timers w) !! k) as [t|]; [|discriminate].
    destruct (due t <=? now w); [|discriminate]. intros [= <-].
    simpl. rewrite omap_app. reflexivity.
Qed.

Lemma run_scheduled evs w w' :
  Forall active_tick evs -> run true evs w = Some w' ->
  omap scheduled (rev (history w')) =
  omap scheduled (rev (history w)) ++ omap tick_of evs.
Proof.
  revert w. induction evs as [|ev evs IH]; intros w Hact; simpl.
  - intros [= <-]. now rewrite app_nil_r.
  - destruct (step true ev w) as [w1|] eqn:Hstep; [|discriminate].
    intros Hrun. inversion Hact as [|? ? Hev Hevs]; subst.
    rewrite (IH w1 Hevs Hrun), (step_scheduled ev w w1 Hev Hstep).
    rewrite <- app_assoc. f_equal. now destruct (tick_of ev).
Qed.

(** Once 2000 ms have passed since the newest tick, its timeout can run and
    writes the values of that tick. *)
Lemma quiet_period_writes given w t k i v rest ms :
  debounce_inv w ->
  history w = Ticked t k i v :: rest ->
  2000 <= ms ->
  run given [Elapse ms; Expire k] w =
  Some {| now := now w + ms;
          timers := {| pending := delete k (pending (timers w));
                       fresh := fresh (timers w) |};
          debouncedUpdateTimeRef := debouncedUpdateTimeRef w;
          history := Wrote (now w + ms) k i v :: history w |}.
Proof.
  intros (_ & _ & Hpast & _ & Hhead) Hhist Hms. simpl.
  destruct (Z.leb_spec 0 ms); [|lia]. simpl.
  rewrite (Hhead t k i v rest Hhist). simpl.
  rewrite Hhist in Hpast. inversion Hpast as [|? ? Ht _]; subst. simpl in Ht.
  destruct (Z.leb_spec (t + 2000) (now w + ms)); [reflexivity|lia].
Qed.

(** C8.  The progress write is a trailing-edge debounce with a quiet period
    of 2000 ms.  Along any run of [timeupdate] ticks, elapsing time and
    timeouts run by the platform: the history holds the ticks of the active
    episode in order; a tick that another tick follows in less than 2000 ms
    is never written; a write carries the episode id and time of the tick
    directly before it, which is at least 2000 ms old, so that between two
    ticks there is at most one write; no timeout writes twice; and once
    2000 ms have passed since the newest tick its values can be written. *)
Theorem progress_write_debounced (given : bool) (evs : list Event) (w : Debounce) :
  run given evs debounce0 = Some w ->
  (given = true -> Forall active_tick evs ->
     omap scheduled (rev (history w)) = omap tick_of evs) /\
  (forall (a b n : nat) t1 k1 i1 v1 t2 k2 i2 v2 tw i v,
      (b < a)%nat ->
      history w !! a = Some (Ticked t1 k1 i1 v1) ->
      history w !! b = Some (Ticked t2 k2 i2 v2) ->
      t2 < t1 + 2000 ->
      history w !! n <> Some (Wrote tw k1 i v)) /\
  (forall (n : nat) tw k i v,
      history w !! n = Some (Wrote tw k i v) ->
      exists tk, history w !! S n = Some (Ticked tk k i v) /\ tk + 2000 <= tw) /\
  (forall (n m : nat) tw tw' k i i' v v',
      history w !! n = Some (Wrote tw k i v) ->
      history w !! m = Some (Wrote tw' k i' v') ->
      n = m) /\
  (forall t k i v rest ms,
      history w = Ticked t k i v :: rest -> 2000 <= ms ->
      exists w', run given [Elapse ms; Expire k] w = Some w' /\
                 history w' = Wrote (now w + ms) k i v :: history w).
Proof.
  intros Hrun.
  pose proof (run_inv given evs debounce0 w debounce0_inv Hrun) as Hinv.
  pose proof (proj1 (proj2 Hinv)) as Hshape.
  split; [|split; [|split; [|split]]].
  - intros -> Hact. now rewrite (run_scheduled evs debounce0 w Hact Hrun).
  - intros a b n t1 k1 i1 v1 t2 k2 i2 v2 tw i v Hba Ha Hb Hsoon.
    now apply (debounced_superseded (history w) a b n t1 k1 i1 v1 t2 k2 i2 v2).
  - intros n tw k i v Hn. now apply debounced_write.
  - intros n m tw tw' k i i' v v' Hn Hm.
    destruct (debounced_write _ _ _ _ _ _ Hshape Hn) as (tk & Htick & _).
    destruct (debounced_write _ _ _ _ _ _ Hshape Hm) as (tk' & Htick' & _).
    pose proof (debounced_tick_unique _ _ _ _ _ _ _ _ _ _ Hshape Htick Htick').
    lia.
  - intros t k i v rest ms Hhist Hms.
    rewrite (quiet_period_writes given w t k i v rest ms Hinv Hhist Hms).
    eexists. split; reflexivity.
Qed.

Lemma tickAt_active t : active_tick (tickAt t).
Proof.
  split; [eexists; reflexivity|].
  exists episode1. split; [reflexivity|discriminate].
Qed.

Lemma two_ticks_then_quiet_history :
  history <$> run true two_ticks_then_quiet debounce0 =
  Some [Wrote 3000 1%nat "episode1" (JS.lit 11);
        Ticked 1000 1%nat "episode1" (JS.lit 11);
        Ticked 0 0%nat "episode1" (JS.lit 10)].
Proof. vm_compute. reflexivity. Qed.

(** The timeout of the first tick is gone once the second tick came. *)
Example superseded_timeout_cannot_run :
  run true [tickAt 10; Elapse 1000; tickAt 11; Elapse 2000; Expire 0%nat] debounce0 = None.
Proof. vm_compute. reflexivity. Qed.

Lemma progress_write_debounced_witness :
  exists w,
    run true two_ticks_then_quiet debounce0 = Some w /\
    omap scheduled (rev (history w)) =
      [("episode1"%string, JS.lit 10); ("episode1"%string, JS.lit 11)] /\
    (forall (n : nat) tw i v, history w !! n <> Some (Wrote tw 0%nat i v)) /\
    history w !! 0%nat = Some (Wrote 3000 1%nat "episode1" (JS.lit 11)).
Proof.
  destruct (run true two_ticks_then_quiet debounce0) as [w|] eqn:Hrun;
    [|vm_compute in Hrun; discriminate Hrun].
  pose proof two_ticks_then_quiet_history as Hhist.
  rewrite Hrun in Hhist. simpl in Hhist. injection Hhist as Hhist.
  exists w. split; [reflexivity|].
  destruct (progress_write_debounced true two_ticks_then_quiet w Hrun)
    as (Hticks & Hsuperseded & _).
  split; [|split].
  - rewrite Hticks; [reflexivity|reflexivity|].
    repeat constructor; apply tickAt_active.
  - intros n tw i v.
    apply (Hsuperseded 2%nat 1%nat n 0 0%nat "episode1"%string (JS.lit 10)
             1000 1%nat "episode1"%string (JS.lit 11)).
    + lia.
    + now rewrite Hhist.
    + now rewrite Hhist.
    + lia.
  - now rewrite Hhist.
Defined.

(** * Further properties of the hook and the code around it *)

(** ** Queue operations composed *)

Lemma addAllToQueue_spec es s :
  queue (addAllToQueue es s) = queue s ++ es /\
  currentEpisode (addAllToQueue es s) = currentEpisode s /\
  isPlaying (addAllToQueue es s) = isPlaying s /\
  currentQueueIndex (addAllToQueue es s) = currentQueueIndex s.
Proof.
  revert s. induction es as [|e es IH]; intros s; simpl.
  - now rewrite app_nil_r.
  - destruct (IH (addToQueue e s)) as (Hq & Hc & Hp & Hi).
    unfold addAllToQueue in *. rewrite Hq, Hc, Hp, Hi. simpl.
    now rewrite <- app_assoc.
Qed.

(** X1.  Any number of [addToQueue] calls appends the episodes in call
    order, duplicates included: the queue grows by exactly the number of
    calls, and the current episode, the pointer and [isPlaying] stay. *)
Theorem addToQueue_appends_in_order (es : list Episode) (s : AudioPlayerState) :
  queue (addAllToQueue es s) = queue s ++ es /\
  length (queue (addAllToQueue es s)) = (length (queue s) + length es)%nat /\
  currentEpisode (addAllToQueue es s) = currentEpisode s /\
  isPlaying (addAllToQueue es s) = isPlaying s /\
  currentQueueIndex (addAllToQueue es s) = currentQueueIndex s.
Proof.
  destruct (addAllToQueue_spec es s) as (Hq & Hrest).
  split; [exact Hq|]. split; [|exact Hrest].
  rewrite Hq. apply length_app.
Qed.

Lemma playEpisode_at_length e s (n : nat) q :
  (forall q', q' ∈ queue s -> id q' <> id e) ->
  (queue s ++ [e]) !! n = Some q -> id q = id e -> n = length (queue s).
Proof.
  intros Hfresh Hn Hid. apply lookup_snoc_Some in Hn as [[_ Hn]|[-> _]]; [|reflexivity].
  exfalso. apply (Hfresh q); [|assumption].
  apply list_elem_of_lookup. eauto.
Qed.

(** X2.  [playEpisode] is idempotent: playing the episode that was just
    played changes nothing, whether the first call found it queued or
    appended it. *)
Theorem playEpisode_idempotent (e : Episode) (s : AudioPlayerState) :
  playEpisode e (playEpisode e s) = playEpisode e s.
Proof.
  destruct (in_queue_dec e s) as [Hin|Hfresh].
  - destruct (playEpisode_present e s Hin) as (n & q & _ & _ & _ & Heq).
    rewrite Heq. rewrite <- Heq at 2. reflexivity.
  - rewrite (playEpisode_fresh e s Hfresh).
    set (s1 := {| currentEpisode := Some e; isPlaying := true;
                  playbackSpeed := playbackSpeed s; volume := volume s;
                  currentTime := currentTime s; duration := duration s;
                  queue := queue s ++ [e]; currentQueueIndex := JS.len (queue s) |}).
    destruct (playEpisode_present e s1) as (n & q & Hq & Hid & _ & ->).
    { exists e. split; [|reflexivity]. simpl. apply elem_of_app. right.
      apply list_elem_of_here. }
    simpl in Hq. rewrite (playEpisode_at_length e s n q Hfresh Hq Hid).
    reflexivity.
Qed.

(** *** Distinct ids *)

Lemma playEpisode_distinct e s : distinct_ids s -> distinct_ids (playEpisode e s).
Proof.
  unfold distinct_ids. intros Hnd.
  destruct (in_queue_dec e s) as [Hin|Hfresh].
  - destruct (playEpisode_present e s Hin) as (n & q & _ & _ & _ & ->). exact Hnd.
  - rewrite (playEpisode_fresh e s Hfresh). simpl.
    rewrite fmap_app. apply NoDup_app. split; [exact Hnd|]. split.
    + intros x Hx Hx'. apply list_elem_of_singleton in Hx' as ->.
      apply list_elem_of_fmap in Hx as (q & Hid & Hq).
      now apply (Hfresh q Hq).
    + apply NoDup_singleton.
Qed.

Lemma removeFromQueue_queue_sublist i s :
  queue (removeFromQueue i s) `sublist_of` queue s.
Proof.
  destruct (Z.lt_ge_cases i 0) as [Hneg|Hpos].
  - rewrite removeFromQueue_queue_out_of_range by now left. reflexivity.
  - destruct (Z.lt_ge_cases i (JS.len (queue s))) as [Hin|Hout].
    + rewrite removeFromQueue_queue_in_range by lia.
      rewrite <- delete_take_drop. apply sublist_delete.
    + rewrite removeFromQueue_queue_out_of_range by now right. reflexivity.
Qed.

Lemma removeFromQueue_distinct i s :
  distinct_ids s -> distinct_ids (removeFromQueue i s).
Proof.
  unfold distinct_ids. intros Hnd. eapply sublist_NoDup; [exact Hnd|].
  apply fmap_sublist, removeFromQueue_queue_sublist.
Qed.

Lemma addToQueue_distinct e s :
  distinct_ids s -> (forall q, q ∈ queue s -> id q <> id e) ->
  distinct_ids (addToQueue e s).
Proof.
  unfold distinct_ids. intros Hnd Hfresh. simpl.
  rewrite fmap_app. apply NoDup_app. split; [exact Hnd|]. split.
  - intros x Hx Hx'. apply list_elem_of_singleton in Hx' as ->.
    apply list_elem_of_fmap in Hx as (q & Hid & Hq).
    now apply (Hfresh q Hq).
  - apply NoDup_singleton.
Qed.

Lemma playNext_distinct state prev s' :
  distinct_ids prev -> playNext state prev = Some s' -> distinct_ids s'.
Proof.
  unfold playNext. intros Hnd.
  destruct (_ <? _); [|now intros [= <-]].
  destruct (JS.get _ _) as [e|]; [|discriminate].
  intros [= <-]. now apply playEpisode_distinct.
Qed.

Lemma playPrevious_distinct state prev s' :
  distinct_ids prev -> playPrevious state prev = Some s' -> distinct_ids s'.
Proof.
  unfold playPrevious. intros Hnd.
  destruct (_ >? _); [|now intros [= <-]].
  destruct (JS.get _ _) as [e|]; [|discriminate].
  intros [= <-]. now apply playEpisode_distinct.
Qed.

(** X3.  The queue never gains a duplicate id except through [addToQueue]:
    every operation keeps the ids of the queue distinct, [addToQueue]
    provided the id it is given is not queued yet.  And [addToQueue] of an
    id that is queued does break it. *)
Theorem operations_keep_ids_distinct (op : Op) (s s' : AudioPlayerState) :
  distinct_ids s ->
  dispatch op s = Some s' ->
  (forall e, op = AddToQueue e -> forall q, q ∈ queue s -> id q <> id e) ->
  distinct_ids s' /\
  (forall e q, q ∈ queue s -> id q = id e -> ~ distinct_ids (addToQueue e s)).
Proof.
  intros Hnd Hstep Hadd. split.
  - destruct op as [e|e|i| | | |]; simpl in Hstep.
    + injection Hstep as <-. now apply playEpisode_distinct.
    + injection Hstep as <-. apply addToQueue_distinct; [assumption|].
      now apply Hadd.
    + injection Hstep as <-. now apply removeFromQueue_distinct.
    + now apply (playNext_distinct s s).
    + now apply (playPrevious_distinct s s).
    + injection Hstep as <-. exact Hnd.
    + injection Hstep as <-. apply NoDup_nil_2.
  - intros e q Hq Hid. unfold distinct_ids. simpl. rewrite fmap_app.
    intros Hdup. apply NoDup_app in Hdup as (_ & Hsep & _).
    apply (Hsep (id e)).
    + apply list_elem_of_fmap. exists q. now split.
    + apply list_elem_of_here.
Qed.

Lemma operations_keep_ids_distinct_witness :
  distinct_ids (playEpisode episode1 playing_second) /\
  ~ distinct_ids (addToQueue episode1' playing_second).
Proof.
  assert (Hnd : distinct_ids playing_second).
  { unfold distinct_ids. apply (bool_decide_unpack _). vm_compute. exact I. }
  destruct (operations_keep_ids_distinct (PlayEpisode episode1) playing_second
              (playEpisode episode1 playing_second) Hnd eq_refl) as [Hkeep Hbreak].
  - intros e [=].
  - split; [exact Hkeep|].
    apply (Hbreak episode1' episode1); [apply list_elem_of_here|reflexivity].
Defined.

(** *** Round trips *)

Lemma removeFromQueue_transport i s :
  playbackSpeed (removeFromQueue i s) = playbackSpeed s /\
  volume (removeFromQueue i s) = volume s /\
  currentTime (removeFromQueue i s) = currentTime s /\
  duration (removeFromQueue i s) = duration s.
Proof.
  unfold removeFromQueue.
  destruct (i <? currentQueueIndex s); [|destruct (i =? currentQueueIndex s)];
    repeat split.
Qed.

(** X4.  While the pointer is inside the queue (or -1), removing at the
    position [addToQueue] appended to undoes the [addToQueue]: the whole
    state is as before. *)
Theorem addToQueue_removeFromQueue_roundtrip (e : Episode) (s : AudioPlayerState) :
  currentQueueIndex s < JS.len (queue s) ->
  removeFromQueue (JS.len (queue s)) (addToQueue e s) = s.
Proof.
  intros Hptr.
  destruct (removeFromQueue_pointer (JS.len (queue s)) (addToQueue e s))
    as (_ & _ & Habove).
  destruct Habove as (Hi & Hc & Hp); [simpl; lia|].
  assert (Hq : queue (removeFromQueue (JS.len (queue s)) (addToQueue e s)) = queue s).
  { rewrite removeFromQueue_queue_in_range.
    - simpl. unfold JS.len. rewrite Nat2Z.id, take_app_length.
      rewrite drop_ge; [apply app_nil_r|].
      rewrite length_app. simpl. lia.
    - simpl. unfold JS.len. rewrite length_app. simpl. lia. }
  destruct (removeFromQueue_transport (JS.len (queue s)) (addToQueue e s))
    as (Hs & Hv & Ht & Hd).
  rewrite (state_eta (removeFromQueue _ _)), Hi, Hc, Hp, Hq, Hs, Hv, Ht, Hd.
  simpl. symmetry. apply state_eta.
Qed.

Lemma addToQueue_removeFromQueue_roundtrip_witness :
  removeFromQueue 2 (addToQueue episode3 playing_second) = playing_second.
Proof.
  apply (addToQueue_removeFromQueue_roundtrip episode3 playing_second). reflexivity.
Defined.

(** With distinct ids, playing the entry of a slot puts the pointer there. *)
Lemma playEpisode_at_slot s (n : nat) q :
  distinct_ids s -> queue s !! n = Some q ->
  playEpisode q s =
  {| currentEpisode := Some q; isPlaying := true;
     playbackSpeed := playbackSpeed s; volume := volume s;
     currentTime := currentTime s; duration := duration s;
     queue := queue s; currentQueueIndex := Z.of_nat n |}.
Proof.
  intros Hnd Hn.
  destruct (playEpisode_present q s) as (n' & q' & Hn' & Hid & _ & ->).
  { exists q. split; [apply list_elem_of_lookup; eauto|reflexivity]. }
  replace n' with n; [reflexivity|].
  apply (NoDup_lookup (id <$> queue s) n n' (id q) Hnd);
    rewrite list_lookup_fmap; [now rewrite Hn|rewrite Hn'; simpl; now rewrite Hid].
Qed.

(** X5.  In a queue with distinct ids and with the pointer on a slot before
    the last, [playNext()] followed by [playPrevious()] comes back: the
    pointer moves up by one and returns, the queue is untouched, and the
    current episode ends as the entry of the slot the pointer started on,
    playing. *)
Theorem playNext_playPrevious_returns (s : AudioPlayerState) :
  distinct_ids s ->
  0 <= currentQueueIndex s < JS.len (queue s) - 1 ->
  exists s1 s2,
    playNext s s = Some s1 /\
    playPrevious s1 s1 = Some s2 /\
    currentQueueIndex s1 = currentQueueIndex s + 1 /\
    currentEpisode s1 = JS.get (queue s) (currentQueueIndex s + 1) /\
    currentQueueIndex s2 = currentQueueIndex s /\
    currentEpisode s2 = JS.get (queue s) (currentQueueIndex s) /\
    is_Some (currentEpisode s2) /\
    queue s2 = queue s /\
    isPlaying s2 = true.
Proof.
  intros Hnd Hptr.
  destruct (playNext_advances s s) as (e & He & Hnext); [lia|].
  pose proof He as He'. apply get_Some in He' as [_ He'].
  rewrite (playEpisode_at_slot s _ e Hnd He') in Hnext.
  rewrite Z2Nat.id in Hnext by lia.
  destruct (get_in_range (queue s) (currentQueueIndex s)) as [c Hc]; [lia|].
  pose proof Hc as Hc'. apply get_Some in Hc' as [_ Hc'].
  set (s1 := {| currentEpisode := Some e; isPlaying := true;
                playbackSpeed := playbackSpeed s; volume := volume s;
                currentTime := currentTime s; duration := duration s;
                queue := queue s; currentQueueIndex := currentQueueIndex s + 1 |}) in *.
  assert (Hprev : playPrevious s1 s1 = Some (playEpisode c s1)).
  { unfold playPrevious. simpl.
    destruct (Z.gtb_spec (currentQueueIndex s + 1) 0); [|lia].
    replace (currentQueueIndex s + 1 - 1) with (currentQueueIndex s) by lia.
    now rewrite Hc. }
  rewrite (playEpisode_at_slot s1 _ c Hnd Hc') in Hprev.
  rewrite Z2Nat.id in Hprev by lia.
  eexists. eexists. split; [exact Hnext|]. split; [exact Hprev|].
  simpl. rewrite He, Hc. repeat split. eauto.
Qed.

Lemma playNext_playPrevious_returns_witness :
  exists s1 s2,
    playNext three_queued three_queued = Some s1 /\
    playPrevious s1 s1 = Some s2 /\
    currentQueueIndex s2 = 0 /\
    currentEpisode s2 = Some episode1.
Proof.
  destruct (playNext_playPrevious_returns three_queued)
    as (s1 & s2 & Hn & Hp & _ & _ & Hi & Hc & _).
  - unfold distinct_ids. apply (bool_decide_unpack _). vm_compute. exact I.
  - vm_compute. split; [discriminate|reflexivity].
  - exists s1, s2. split; [exact Hn|]. split; [exact Hp|].
    split; [exact Hi|exact Hc].
Defined.

(** ** The transport buttons *)

(** X6.  The [disabled] attributes of the previous and next buttons against
    what the actions do.  In every state the engine reaches (indices given
    to [removeFromQueue] not negative), a disabled button's action returns
    the state unchanged, and an enabled button's action plays the adjacent
    entry of the queue.  If moreover no id occurs twice in the queue, an
    enabled button's action moves the pointer by one and leaves the queue
    as it is, so that a button is disabled exactly when its action would
    change nothing.  (With a repeated id an enabled button can change
    nothing, see [enabled_next_changes_nothing].) *)
Theorem buttons_match_actions (s : AudioPlayerState) :
  reachable_nonneg s ->
  (nextDisabled s = true -> playNext s s = Some s) /\
  (previousDisabled s = true -> playPrevious s s = Some s) /\
  (nextDisabled s = false ->
     exists e, JS.get (queue s) (currentQueueIndex s + 1) = Some e /\
               playNext s s = Some (playEpisode e s) /\
               currentEpisode (playEpisode e s) = Some e) /\
  (previousDisabled s = false ->
     exists e, JS.get (queue s) (currentQueueIndex s - 1) = Some e /\
               playPrevious s s = Some (playEpisode e s) /\
               currentEpisode (playEpisode e s) = Some e) /\
  (distinct_ids s ->
     (nextDisabled s = false ->
        exists s', playNext s s = Some s' /\ queue s' = queue s /\
                   currentQueueIndex s' = currentQueueIndex s + 1) /\
     (previousDisabled s = false ->
        exists s', playPrevious s s = Some s' /\ queue s' = queue s /\
                   currentQueueIndex s' = currentQueueIndex s - 1) /\
     (nextDisabled s = true <-> playNext s s = Some s) /\
     (previousDisabled s = true <-> playPrevious s s = Some s)).
Proof.
  intros Hreach.
  pose proof (pointer_tracks_current_range s (reachable_nonneg_tracks s Hreach)) as Hrange.
  unfold pointer_in_range in Hrange.
  assert (Hcur : forall e, currentEpisode (playEpisode e s) = Some e).
  { intros e. unfold playEpisode. now destruct (negb _). }
  assert (Hnd_next : nextDisabled s = true -> playNext s s = Some s).
  { unfold nextDisabled.
    destruct (Z.geb_spec (currentQueueIndex s) (JS.len (queue s) - 1)); [|discriminate].
    intros _. unfold playNext.
    destruct (Z.ltb_spec (currentQueueIndex s) (JS.len (queue s) - 1)); [lia|reflexivity]. }
  assert (Hnd_prev : previousDisabled s = true -> playPrevious s s = Some s).
  { unfold previousDisabled.
    destruct (Z.leb_spec (currentQueueIndex s) 0); [|discriminate].
    intros _. now apply playPrevious_at_start. }
  assert (Hen_next : nextDisabled s = false ->
            exists e, JS.get (queue s) (currentQueueIndex s + 1) = Some e /\
                      playNext s s = Some (playEpisode e s)).
  { unfold nextDisabled.
    destruct (Z.geb_spec (currentQueueIndex s) (JS.len (queue s) - 1)); [discriminate|].
    intros _. apply playNext_advances. lia. }
  assert (Hen_prev : previousDisabled s = false ->
            exists e, JS.get (queue s) (currentQueueIndex s - 1) = Some e /\
                      playPrevious s s = Some (playEpisode e s)).
  { unfold previousDisabled.
    destruct (Z.leb_spec (currentQueueIndex s) 0); [discriminate|].
    intros _. apply playPrevious_retreats. lia. }
  split; [exact Hnd_next|]. split; [exact Hnd_prev|].
  split; [intros H; destruct (Hen_next H) as (e & He & Hplay); exists e; auto|].
  split; [intros H; destruct (Hen_prev H) as (e & He & Hplay); exists e; auto|].
  intros Hnd.
  assert (Hmove_next : nextDisabled s = false ->
            exists s', playNext s s = Some s' /\ queue s' = queue s /\
                       currentQueueIndex s' = currentQueueIndex s + 1).
  { intros H. destruct (Hen_next H) as (e & He & Hplay).
    pose proof He as He'. apply get_Some in He' as [Hpos He'].
    rewrite (playEpisode_at_slot s _ e Hnd He') in Hplay.
    eexists. split; [exact Hplay|]. simpl. split; [reflexivity|]. lia. }
  assert (Hmove_prev : previousDisabled s = false ->
            exists s', playPrevious s s = Some s' /\ queue s' = queue s /\
                       currentQueueIndex s' = currentQueueIndex s - 1).
  { intros H. destruct (Hen_prev H) as (e & He & Hplay).
    pose proof He as He'. apply get_Some in He' as [Hpos He'].
    rewrite (playEpisode_at_slot s _ e Hnd He') in Hplay.
    eexists. split; [exact Hplay|]. simpl. split; [reflexivity|]. lia. }
  split; [exact Hmove_next|]. split; [exact Hmove_prev|].
  split; (split; [assumption|]); intros Hsame.
  - destruct (nextDisabled s) eqn:Hd; [reflexivity|exfalso].
    destruct (Hmove_next eq_refl) as (s' & Hplay & _ & Hi).
    rewrite Hsame in Hplay. injection Hplay as <-. lia.
  - destruct (previousDisabled s) eqn:Hd; [reflexivity|exfalso].
    destruct (Hmove_prev eq_refl) as (s' & Hplay & _ & Hi).
    rewrite Hsame in Hplay. injection Hplay as <-. lia.
Qed.

Lemma buttons_match_actions_witness :
  playNext playing_second playing_second = Some playing_second /\
  playPrevious playing_second playing_second = Some (playEpisode episode1 playing_second) /\
  (previousDisabled playing_second = true <->
   playPrevious playing_second playing_second = Some playing_second).
Proof.
  destruct (buttons_match_actions playing_second playing_second_reachable_nonneg)
    as (Hnext & _ & _ & Hprev & Hdistinct).
  split; [apply Hnext; reflexivity|]. split.
  - destruct (Hprev eq_refl) as (e & He & Hplay & _).
    vm_compute in He. injection He as <-. exact Hplay.
  - apply Hdistinct.
    unfold distinct_ids. apply (bool_decide_unpack _). vm_compute. exact I.
Defined.

(** On the queue [[episode1; episode1]] with the pointer on slot 0 the next
    button is enabled, and [playNext()] finds the id at slot 0 again: the
    state stays as it is. *)
Lemma enabled_next_changes_nothing :
  nextDisabled queued_twice = false /\
  playNext queued_twice queued_twice = Some queued_twice.
Proof. split; reflexivity. Qed.

(** ** Stopping *)

Lemma reconcile_not_playing s audio :
  isPlaying s = false ->
  reconcile s (Some audio) = (Some (Audio.pause audio), None).
Proof. intros H. unfold reconcile. now rewrite H. Qed.

(** X7.  Whatever stops playback reaches the element: after [clearQueue],
    after removing the current entry, after [handleEnded] at the last
    position, after a native pause event, a rejected play request or a load
    error, and after [togglePlayPause] on a playing state, the
    reconciliation effect pauses the element and asks for no play; the
    element keeps its source and position. *)
Theorem stopping_pauses_element (s : AudioPlayerState) (audio : Audio.t) :
  let paused_now s' :=
    reconcile s' (Some audio) = (Some (Audio.pause audio), None) in
  paused_now (clearQueue s) /\
  paused_now (removeFromQueue (currentQueueIndex s) s) /\
  (currentQueueIndex s = JS.len (queue s) - 1 ->
     exists s', handleEnded s s = Some s' /\ paused_now s') /\
  paused_now (handlePause s) /\
  paused_now (settle Rejected {| onRejected := setIsPlaying false |} s) /\
  paused_now (bind_handleError s) /\
  (isPlaying s = true -> paused_now (togglePlayPause s)) /\
  Audio.paused (Audio.pause audio) = true /\
  Audio.src (Audio.pause audio) = Audio.src audio /\
  Audio.currentTime (Audio.pause audio) = Audio.currentTime audio.
Proof.
  intros paused_now. unfold paused_now.
  split; [now apply reconcile_not_playing|].
  split.
  { apply reconcile_not_playing.
    now destruct (removeFromQueue_pointer (currentQueueIndex s) s) as (_ & [_ [? _]] & _). }
  split.
  { intros Hlast. exists (setIsPlaying false s). split.
    - unfold handleEnded.
      destruct (Z.ltb_spec (currentQueueIndex s) (JS.len (queue s) - 1)); [lia|reflexivity].
    - now apply reconcile_not_playing. }
  split; [now apply reconcile_not_playing|].
  split; [now apply reconcile_not_playing|].
  split; [now apply reconcile_not_playing|].
  split; [|repeat split].
  intros Hp. apply reconcile_not_playing. simpl. now rewrite Hp.
Qed.

Lemma stopping_pauses_element_witness :
  reconcile (togglePlayPause playing_second) (Some (mockAudio (JS.lit 10) (JS.lit 180))) =
  (Some (Audio.pause (mockAudio (JS.lit 10) (JS.lit 180))), None).
Proof.
  destruct (stopping_pauses_element playing_second (mockAudio (JS.lit 10) (JS.lit 180)))
    as (_ & _ & _ & _ & _ & _ & Htoggle & _).
  apply Htoggle. reflexivity.
Defined.

(** ** Resuming *)

Lemma readProperty_own (progress : gmap string JS.number) key t :
  progress !! key = Some t -> readProperty progress key = Num t.
Proof. intros H. unfold readProperty. now rewrite H. Qed.

Lemma readProperty_missing (progress : gmap string JS.number) key :
  progress !! key = None ->
  (In key Object_prototype -> readProperty progress key = Inherited key) /\
  (~ In key Object_prototype -> readProperty progress key = Undefined).
Proof.
  intros H. unfold readProperty. rewrite H.
  destruct (existsb (String.eqb key) Object_prototype) eqn:Hex.
  - split; [reflexivity|]. intros Hnot. exfalso. apply Hnot.
    apply existsb_exists in Hex as (x & Hin & Heq).
    apply String.eqb_eq in Heq. now subst.
  - split; [|reflexivity]. intros Hin.
    assert (Htrue : existsb (String.eqb key) Object_prototype = true).
    { apply existsb_exists. exists key. split; [exact Hin|apply String.eqb_refl]. }
    congruence.
Qed.

(** X8.  A bind resumes where the progress map says.  Once the application
    recorded position [t] for an episode (signed in, id not empty), the
    value the metadata-ready listener of a later bind of that episode
    assigns to [audio.currentTime] is [t], or 0 if [t] is 0 or [NaN],
    whatever the id; the binds of episodes with other ids do what they did
    before.  For an episode without an entry the listener assigns 0, unless
    the id is one of the names [Object.prototype] defines (["constructor"],
    ["toString"], ...): then the read finds the inherited member, which is
    truthy, and the listener assigns that instead of 0.  What is assigned
    is never [undefined] and never the number [NaN]. *)
Theorem bind_resumes_at_saved_progress
    (user : User) (progress : gmap string JS.number) (e : Episode) (t : JS.number) :
  id e <> ""%string ->
  let progress' := App_updateTimeProgress (Some user) progress (id e) t in
  savedTime progress' e = Num (if JS.truthy t then t else JS.lit 0) /\
  (forall e' audio, id e' <> id e ->
     savedTime progress' e' = savedTime progress e' /\
     bind_handleLoadedMetadata progress' e' audio =
     bind_handleLoadedMetadata progress e' audio) /\
  (forall e', progress' !! id e' = None -> ~ In (id e') Object_prototype ->
     savedTime progress' e' = Num (JS.lit 0)) /\
  (forall e', progress' !! id e' = None -> In (id e') Object_prototype ->
     savedTime progress' e' = Inherited (id e')) /\
  (forall e', savedTime progress' e' <> Undefined /\
              savedTime progress' e' <> Num JS.NaN).
Proof.
  intros Hid progress'.
  assert (Hp : progress' = <[id e := t]> progress).
  { unfold progress', App_updateTimeProgress.
    apply String.eqb_neq in Hid. now rewrite Hid. }
  rewrite Hp. clear progress' Hp.
  split; [|split; [|split; [|split]]].
  - unfold savedTime.
    rewrite (readProperty_own _ _ t) by apply lookup_insert_eq.
    simpl. now destruct (JS.truthy t).
  - intros e' audio Hne.
    assert (Hread : readProperty (<[id e := t]> progress) (id e') =
                    readProperty progress (id e')).
    { unfold readProperty. now rewrite lookup_insert_ne by congruence. }
    unfold bind_handleLoadedMetadata, savedTime. now rewrite Hread.
  - intros e' Hnone Hout. unfold savedTime.
    now rewrite (proj2 (readProperty_missing _ _ Hnone) Hout).
  - intros e' Hnone Hin. unfold savedTime.
    now rewrite (proj1 (readProperty_missing _ _ Hnone) Hin).
  - intros e'. unfold savedTime, readProperty.
    destruct (_ !! id e') as [t'|].
    + simpl. destruct t'; simpl; split; discriminate.
    + destruct (existsb _ _); simpl; split; discriminate.
Qed.

Lemma bind_resumes_at_saved_progress_witness :
  savedTime (App_updateTimeProgress (Some offlineUser) ∅ "episode1" (JS.lit 42)) episode1
    = Num (JS.lit 42) /\
  savedTime (App_updateTimeProgress (Some offlineUser) ∅ "episode1" (JS.lit 42))
            (mockEpisode "constructor" "Test Episode")
    = Inherited "constructor".
Proof.
  pose proof (bind_resumes_at_saved_progress offlineUser ∅ episode1 (JS.lit 42)
                ltac:(discriminate)) as (Hown & _ & _ & Hinherited & _).
  split; [exact Hown|].
  apply (Hinherited (mockEpisode "constructor" "Test Episode")).
  - reflexivity.
  - simpl. tauto.
Defined.

(** ** More on the progress debounce *)

Lemma pending_size (m : gmap nat Timeout) (r : option nat) :
  (forall k t, m !! k = Some t -> r = Some k) -> (size m <= 1)%nat.
Proof.
  intros Hall. destruct r as [r|].
  - assert (Hdel : delete r m = ∅).
    { apply map_empty. intros k.
      destruct (delete r m !! k) as [t|] eqn:Hk; [|reflexivity].
      apply lookup_delete_Some in Hk as [Hne Hk].
      specialize (Hall k t Hk). congruence. }
    pose proof (map_size_delete r m) as Hsize.
    rewrite Hdel, map_size_empty in Hsize.
    destruct (m !! r); simpl in Hsize; lia.
  - assert (Hempty : m = ∅).
    { apply map_empty. intros k.
      destruct (m !! k) as [t|] eqn:Hk; [|reflexivity].
      specialize (Hall k t Hk). discriminate. }
    rewrite Hempty, map_size_empty. lia.
Qed.

(** X9.  The hook never has more than one progress timeout pending, and a
    pending timeout is the one [debouncedUpdateTimeRef] holds: every tick
    clears the previous timeout before it sets the next. *)
Theorem at_most_one_timeout_pending (given : bool) (evs : list Event) (w : Debounce) :
  run given evs debounce0 = Some w ->
  (size (pending (timers w)) <= 1)%nat /\
  (forall k, is_Some (pending (timers w) !! k) -> debouncedUpdateTimeRef w = Some k).
Proof.
  intros Hrun.
  destruct (run_inv given evs debounce0 w debounce0_inv Hrun) as (Hpend & _).
  split.
  - apply (pending_size _ (debouncedUpdateTimeRef w)).
    intros k t Hk. now destruct (Hpend k t Hk).
  - intros k [t Hk]. now destruct (Hpend k t Hk).
Qed.

Lemma at_most_one_timeout_pending_witness :
  exists w, run true [tickAt 10; Elapse 1000; tickAt 11] debounce0 = Some w /\
            (size (pending (timers w)) <= 1)%nat /\
            debouncedUpdateTimeRef w = Some 1%nat.
Proof.
  destruct (run true [tickAt 10; Elapse 1000; tickAt 11] debounce0) as [w|] eqn:Hrun;
    [|vm_compute in Hrun; discriminate Hrun].
  exists w. split; [reflexivity|].
  destruct (at_most_one_timeout_pending true _ w Hrun) as [Hsize Href].
  split; [exact Hsize|]. apply Href.
  vm_compute in Hrun. injection Hrun as <-. vm_compute. eauto.
Defined.

Lemma debounced_tail o r : debounced (o :: r) -> debounced r.
Proof. destruct o; simpl; tauto. Qed.

Lemma debounced_counts h :
  debounced h ->
  (count_writes h <= count_ticks h)%nat /\
  (forall t k i v r, h = Ticked t k i v :: r -> (count_writes h < count_ticks h)%nat).
Proof.
  unfold count_writes, count_ticks.
  induction h as [|o r IH]; intros Hd; [split; [simpl; lia|discriminate]|].
  destruct (IH (debounced_tail o r Hd)) as [Hle Hlt].
  destruct o as [t k i v|tw k i v]; simpl.
  - split; [lia|]. intros ? ? ? ? ? _. apply Nat.lt_succ_r. exact Hle.
  - split; [|discriminate].
    destruct Hd as (_ & tk & r' & -> & _).
    specialize (Hlt tk k i v r' eq_refl). simpl in *. lia.
Qed.

(** X10.  Progress writes are rate limited: two calls of [onTimeProgress]
    are at least 2000 ms apart, and there are never more calls than ticks
    that scheduled one. *)
Theorem progress_writes_rate_limited (given : bool) (evs : list Event) (w : Debounce) :
  run given evs debounce0 = Some w ->
  (forall (n m : nat) tw k i v tw' k' i' v',
      (n < m)%nat ->
      history w !! n = Some (Wrote tw k i v) ->
      history w !! m = Some (Wrote tw' k' i' v') ->
      tw' + 2000 <= tw) /\
  (count_writes (history w) <= count_ticks (history w))%nat.
Proof.
  intros Hrun.
  destruct (run_inv given evs debounce0 w debounce0_inv Hrun) as (_ & Hshape & _).
  split; [|now apply debounced_counts].
  intros n m tw k i v tw' k' i' v' Hnm Hn Hm.
  destruct (debounced_write _ _ _ _ _ _ Hshape Hn) as (tk & Htick & Hlate).
  assert (S n <> m) by (intros <-; rewrite Hm in Htick; discriminate).
  pose proof (debounced_ordered _ (S n) m _ _ Hshape ltac:(lia) Htick Hm) as Hord.
  simpl in Hord. lia.
Qed.

Lemma progress_writes_rate_limited_witness :
  exists w,
    run true (two_ticks_then_quiet ++ [tickAt 12; Elapse 2500; Expire 2%nat]) debounce0
      = Some w /\
    history w !! 0%nat = Some (Wrote 5500 2%nat "episode1" (JS.lit 12)) /\
    history w !! 2%nat = Some (Wrote 3000 1%nat "episode1" (JS.lit 11)) /\
    3000 + 2000 <= 5500.
Proof.
  destruct (run true (two_ticks_then_quiet ++ [tickAt 12; Elapse 2500; Expire 2%nat])
              debounce0) as [w|] eqn:Hrun; [|vm_compute in Hrun; discriminate Hrun].
  exists w. split; [reflexivity|].
  assert (Hh : history w !! 0%nat = Some (Wrote 5500 2%nat "episode1" (JS.lit 12)) /\
               history w !! 2%nat = Some (Wrote 3000 1%nat "episode1" (JS.lit 11))).
  { vm_compute in Hrun. injection Hrun as <-. split; reflexivity. }
  destruct Hh as [H0 H2]. split; [exact H0|]. split; [exact H2|].
  destruct (progress_writes_rate_limited true _ w Hrun) as [Hgap _].
  apply (Hgap 0%nat 2%nat _ _ _ _ _ _ _ _ ltac:(lia) H0 H2).
Defined.

Lemma handleTimeUpdate_ignored given state h w :
  ignored_tick state h -> snd (handleTimeUpdate given state h w) = w.
Proof.
  unfold handleTimeUpdate. intros [Ha|[He|(ep & He & Hid)]].
  - now rewrite Ha.
  - rewrite He. now destruct (audioRef h).
  - rewrite He. destruct (audioRef h); [|reflexivity].
    unfold updateTimeProgress. now rewrite Hid.
Qed.

Lemma updateTimeProgress_not_given i v w : updateTimeProgress false i v w = w.
Proof. unfold updateTimeProgress. now rewrite orb_true_r. Qed.

(** X11.  A tick that is ignored (no element mounted, no current episode,
    or an episode whose id is the empty string) returns before the pending
    timeout is cleared: the write scheduled by the tick before it still
    happens, with that tick's values, once its 2000 ms are over. *)
Theorem ignored_tick_keeps_pending_write
    (given : bool) (evs : list Event) (w : Debounce)
    (state : AudioPlayerState) (h : Hook) t k i v rest ms :
  run given evs debounce0 = Some w ->
  history w = Ticked t k i v :: rest ->
  ignored_tick state h ->
  2000 <= ms ->
  exists w',
    run given [TimeUpdate state h; Elapse ms; Expire k] w = Some w' /\
    history w' = Wrote (now w + ms) k i v :: history w.
Proof.
  intros Hrun Hhist Hign Hms.
  pose proof (run_inv given evs debounce0 w debounce0_inv Hrun) as Hinv.
  change (run given [TimeUpdate state h; Elapse ms; Expire k] w)
    with (run given [Elapse ms; Expire k] (snd (handleTimeUpdate given state h w))).
  rewrite (handleTimeUpdate_ignored given state h w Hign).
  rewrite (quiet_period_writes given w t k i v rest ms Hinv Hhist Hms).
  eexists. split; reflexivity.
Qed.

Lemma ignored_tick_keeps_pending_write_witness :
  exists w w',
    run true [tickAt 10] debounce0 = Some w /\
    run true [TimeUpdate initialState (mockHook (JS.lit 11) (JS.lit 180));
              Elapse 2000; Expire 0%nat] w = Some w' /\
    history w' = [Wrote 2000 0%nat "episode1" (JS.lit 10);
                  Ticked 0 0%nat "episode1" (JS.lit 10)].
Proof.
  destruct (run true [tickAt 10] debounce0) as [w|] eqn:Hrun;
    [|vm_compute in Hrun; discriminate Hrun].
  assert (Hh : history w = [Ticked 0 0%nat "episode1" (JS.lit 10)] /\ now w = 0).
  { vm_compute in Hrun. injection Hrun as <-. split; reflexivity. }
  destruct Hh as [Hh Hnow].
  destruct (ignored_tick_keeps_pending_write true [tickAt 10] w initialState
              (mockHook (JS.lit 11) (JS.lit 180)) 0 0%nat "episode1" (JS.lit 10) [] 2000
              Hrun Hh) as (w' & Hrun' & Hh').
  - right. left. reflexivity.
  - lia.
  - exists w, w'. split; [reflexivity|]. split; [exact Hrun'|].
    rewrite Hh', Hh, Hnow. reflexivity.
Defined.

Lemma step_not_given ev w w' :
  history w = [] -> pending (timers w) = ∅ ->
  step false ev w = Some w' -> history w' = [] /\ pending (timers w') = ∅.
Proof.
  intros Hh Hp. destruct ev as [state h|ms|k]; simpl.
  - intros [= <-]. unfold handleTimeUpdate.
    destruct (audioRef h); [|now split].
    destruct (currentEpisode state); [|now split].
    simpl. rewrite updateTimeProgress_not_given. now split.
  - destruct (0 <=? ms); [|discriminate]. intros [= <-]. now split.
  - rewrite Hp, lookup_empty. discriminate.
Qed.

(** X12.  Without an [onTimeProgress] callback the hook schedules nothing:
    whatever ticks arrive, no timeout is ever pending and nothing is ever
    written, and no timeout can run. *)
Theorem no_callback_no_writes (evs : list Event) (w : Debounce) :
  run false evs debounce0 = Some w ->
  history w = [] /\ pending (timers w) = ∅ /\
  (forall k, step false (Expire k) w = None).
Proof.
  assert (Hgen : forall w0, history w0 = [] -> pending (timers w0) = ∅ ->
                   run false evs w0 = Some w ->
                   history w = [] /\ pending (timers w) = ∅).
  { induction evs as [|ev evs IH]; intros w0 Hh Hp; simpl.
    - intros [= <-]. now split.
    - destruct (step false ev w0) as [w1|] eqn:Hstep; [|discriminate].
      destruct (step_not_given ev w0 w1 Hh Hp Hstep) as [Hh1 Hp1].
      now apply IH. }
  intros Hrun. destruct (Hgen debounce0 eq_refl eq_refl Hrun) as [Hh Hp].
  split; [exact Hh|]. split; [exact Hp|].
  intros k. simpl. now rewrite Hp, lookup_empty.
Qed.

Lemma no_callback_no_writes_witness :
  exists w, run false [tickAt 10; Elapse 5000; tickAt 11] debounce0 = Some w /\
            history w = [].
Proof.
  destruct (run false [tickAt 10; Elapse 5000; tickAt 11] debounce0) as [w|] eqn:Hrun;
    [|vm_compute in Hrun; discriminate Hrun].
  exists w. split; [reflexivity|].
  apply (no_callback_no_writes _ w Hrun).
Defined.

(** ** [formatTime], [truncateText], [stripHtml] on the cases of the tests *)

Example test_formatTime :
  formatTime (JS.lit 65) = "1:05"%string /\
  formatTime (JS.lit 30) = "0:30"%string /\
  formatTime (JS.lit 0) = "0:00"%string /\
  formatTime (JS.lit 3665) = "1:01:05"%string /\
  formatTime (JS.lit 7200) = "2:00:00"%string /\
  formatTime JS.NaN = "0:00"%string /\
  formatTime (JS.lit (-10)) = "0:00"%string.
Proof. vm_compute. repeat split. Qed.

Example test_stripHtml :
  stripHtml "<p>Hello <strong>world</strong></p>" = "Hello world"%string /\
  stripHtml "<div><span>Test</span></div>" = "Test"%string /\
  stripHtml "No HTML here" = "No HTML here"%string /\
  stripHtml "" = ""%string /\
  stripHtml "<p></p>" = ""%string /\
  stripHtml "<br/>" = ""%string.
Proof. vm_compute. repeat split. Qed.

Example test_truncateText :
  truncateText "This is a long text" 10 = "This is a ..."%string /\
  truncateText "Short" 10 = "Short"%string /\
  truncateText "Exactly ten" 11 = "Exactly ten"%string /\
  truncateText "" 10 = ""%string /\
  truncateText "Test" 0 = "..."%string.
Proof. vm_compute. repeat split. Qed.

(** ** Strings *)

Lemma length_append (s t : string) :
  String.length (s +:+ t) = (String.length s + String.length t)%nat.
Proof. induction s as [|c s IH]; simpl; [reflexivity|now rewrite IH]. Qed.

Lemma append_empty_r (s : string) : s +:+ "" = s.
Proof. induction s as [|c s IH]; [reflexivity|]. now rewrite <- IH at 2. Qed.

Lemma substring_0_length (n : nat) (s : string) :
  (n <= String.length s)%nat -> String.length (substring 0 n s) = n.
Proof.
  revert n. induction s as [|c s IH]; intros [|n] Hn; simpl in *; try reflexivity; [lia|].
  rewrite IH; [reflexivity|lia].
Qed.

Lemma substring_0_append (n : nat) (s t : string) :
  (n <= String.length s)%nat -> substring 0 n (s +:+ t) = substring 0 n s.
Proof.
  revert n. induction s as [|c s IH]; intros [|n] Hn; simpl in *; try reflexivity.
  - now destruct t.
  - lia.
  - rewrite IH; [reflexivity|lia].
Qed.

Lemma substring_0_all (s : string) : substring 0 (String.length s) s = s.
Proof. induction s as [|c s IH]; simpl; [reflexivity|now rewrite IH]. Qed.

Lemma substring_0_prefix (n : nat) (s : string) :
  String.prefix (substring 0 n s) s = true.
Proof.
  revert n. induction s as [|c s IH]; intros [|n]; simpl; try reflexivity.
  destruct (ascii_dec c c); [apply IH|contradiction].
Qed.

(** ** [truncateText] *)

Lemma truncateText_long text maxLength :
  maxLength < Z.of_nat (String.length text) ->
  truncateText text maxLength = substring 0 (Z.to_nat maxLength) text +:+ "...".
Proof.
  intros H. unfold truncateText.
  destruct (Z.leb_spec (Z.of_nat (String.length text)) maxLength); [lia|reflexivity].
Qed.

(** X13.  [truncateText] returns a text of at most [maxLength] units as it
    is.  A longer text becomes its first [maxLength] units (none if
    [maxLength] is negative) followed by three dots, so the result has
    [maxLength + 3] units, three more than the limit.  Truncating the
    result again with the same limit changes nothing. *)
Theorem truncateText_cuts_and_marks (text : string) (maxLength : Z) :
  (Z.of_nat (String.length text) <= maxLength -> truncateText text maxLength = text) /\
  (maxLength < Z.of_nat (String.length text) ->
     truncateText text maxLength = substring 0 (Z.to_nat maxLength) text +:+ "..." /\
     String.prefix (substring 0 (Z.to_nat maxLength) text) text = true /\
     String.length (truncateText text maxLength) = (Z.to_nat maxLength + 3)%nat) /\
  truncateText (truncateText text maxLength) maxLength = truncateText text maxLength.
Proof.
  assert (Hlen : maxLength < Z.of_nat (String.length text) ->
                 String.length (substring 0 (Z.to_nat maxLength) text) = Z.to_nat maxLength).
  { intros H. apply substring_0_length. lia. }
  split; [|split].
  - intros H. unfold truncateText.
    destruct (Z.leb_spec (Z.of_nat (String.length text)) maxLength); [reflexivity|lia].
  - intros H. rewrite (truncateText_long text maxLength H).
    split; [reflexivity|]. split; [apply substring_0_prefix|].
    rewrite length_append, (Hlen H). reflexivity.
  - destruct (Z.le_gt_cases (Z.of_nat (String.length text)) maxLength) as [Hle|Hgt].
    + unfold truncateText.
      destruct (Z.leb_spec (Z.of_nat (String.length text)) maxLength); [|lia].
      destruct (Z.leb_spec (Z.of_nat (String.length text)) maxLength); [reflexivity|lia].
    + rewrite (truncateText_long text maxLength Hgt).
      rewrite truncateText_long.
      * rewrite substring_0_append by (rewrite (Hlen Hgt); lia).
        rewrite <- (Hlen Hgt) at 1. now rewrite substring_0_all.
      * rewrite length_append, (Hlen Hgt). simpl. lia.
Qed.

Lemma truncateText_cuts_and_marks_witness :
  String.length (truncateText "Test" 3) = 6%nat /\
  truncateText "Test" 4 = "Test"%string.
Proof.
  destruct (truncateText_cuts_and_marks "Test" 3) as (_ & Hlong & _).
  destruct (truncateText_cuts_and_marks "Test" 4) as (Hshort & _).
  split.
  - destruct Hlong as (_ & _ & Hlen); [simpl; lia|exact Hlen].
  - apply Hshort. simpl. lia.
Defined.

(** ** [stripHtml] *)

Lemma strip_no_open b s : occurs "<" (strip b s) = false.
Proof.
  revert b. induction s as [|c s IH]; intros b; simpl; [now destruct b|].
  destruct b.
  - destruct (Ascii.eqb c ">"); apply IH.
  - destruct (Ascii.eqb c "<") eqn:Hc; [apply IH|].
    simpl. now rewrite Hc, IH.
Qed.

Lemma strip_text s : occurs "<" s = false -> strip false s = s.
Proof.
  induction s as [|c s IH]; simpl; [reflexivity|].
  intros H. apply orb_false_iff in H as [Hc Hs].
  rewrite Hc. now rewrite IH.
Qed.

Lemma strip_length b s : (String.length (strip b s) <= String.length s)%nat.
Proof.
  revert b. induction s as [|c s IH]; intros b; simpl; [lia|].
  destruct b.
  - destruct (Ascii.eqb c ">"); [specialize (IH false)|specialize (IH true)]; lia.
  - destruct (Ascii.eqb c "<"); [specialize (IH true)|specialize (IH false); simpl]; lia.
Qed.

Lemma strip_unclosed r : occurs ">" r = false -> strip true r = ""%string.
Proof.
  induction r as [|c r IH]; simpl; [reflexivity|].
  intros H. apply orb_false_iff in H as [Hc Hr].
  rewrite Hc. now apply IH.
Qed.

Lemma strip_append_text p q :
  occurs "<" p = false -> strip false (p +:+ q) = p +:+ strip false q.
Proof.
  induction p as [|c p IH]; simpl; [reflexivity|].
  intros H. apply orb_false_iff in H as [Hc Hp].
  rewrite Hc. now rewrite IH.
Qed.

(** X14.  [stripHtml] never leaves a ["<"] in its result; a text without
    ["<"] is returned as it is (a lone [">"] stays); the result is never
    longer than the input; and stripping twice equals stripping once. *)
Theorem stripHtml_removes_every_tag (html : string) :
  occurs "<" (stripHtml html) = false /\
  (occurs "<" html = false -> stripHtml html = html) /\
  (String.length (stripHtml html) <= String.length html)%nat /\
  stripHtml (stripHtml html) = stripHtml html.
Proof.
  unfold stripHtml.
  split; [apply strip_no_open|]. split; [apply strip_text|].
  split; [apply strip_length|]. apply strip_text, strip_no_open.
Qed.

Lemma stripHtml_removes_every_tag_witness :
  stripHtml "a > b" = "a > b"%string.
Proof.
  apply (proj1 (proj2 (stripHtml_removes_every_tag "a > b"))). reflexivity.
Defined.

(** X15.  A ["<"] that no [">"] follows swallows the rest of the text:
    after a text free of ["<"], everything from an unclosed ["<"] to the
    end is dropped. *)
Theorem stripHtml_unclosed_tag_drops_rest (before rest : string) :
  occurs "<" before = false ->
  occurs ">" rest = false ->
  stripHtml (before +:+ "<" +:+ rest) = before.
Proof.
  intros Hb Hr. unfold stripHtml.
  rewrite strip_append_text by assumption. simpl.
  rewrite strip_unclosed by assumption. apply append_empty_r.
Qed.

Lemma stripHtml_unclosed_tag_drops_rest_witness :
  stripHtml "if a < b then stop" = "if a "%string.
Proof.
  apply (stripHtml_unclosed_tag_drops_rest "if a " " b then stop"); reflexivity.
Defined.

(** ** [formatTime] *)

Lemma formatTime_valid seconds t :
  JSNum.lt seconds (JS.lit 0) = false ->
  Date_new (JSNum.mul seconds (JS.lit 1000)) = Some t ->
  formatTime seconds = clock_text (clock_of t).
Proof.
  intros Hneg Hdate. unfold formatTime.
  assert (Hnan : JSNum.isNaN seconds = false).
  { destruct seconds; try reflexivity. discriminate Hdate. }
  rewrite Hnan, Hneg, Hdate. reflexivity.
Qed.

Lemma clock_of_whole_seconds t : clock_of t = clock_of (1000 * (t / 1000)).
Proof.
  unfold clock_of.
  replace 3600000 with (1000 * 3600) by reflexivity.
  replace 60000 with (1000 * 60) by reflexivity.
  rewrite <- !Z.div_div by lia.
  replace (1000 * (t / 1000) / 1000) with (t / 1000); [reflexivity|].
  rewrite Z.mul_comm, Z.div_mul; lia.
Qed.

Lemma clock_of_day u q :
  clock_of (1000 * (u + 86400 * q)) = clock_of (1000 * u).
Proof.
  unfold clock_of.
  replace 3600000 with (1000 * 3600) by reflexivity.
  replace 60000 with (1000 * 60) by reflexivity.
  rewrite <- !Z.div_div by lia.
  rewrite !(Z.mul_comm 1000), !Z.div_mul by lia.
  replace (u + 86400 * q) with (u + (24 * q) * 3600) at 1 by lia.
  replace (u + 86400 * q) with (u + (1440 * q) * 60) at 1 by lia.
  replace (u + 86400 * q) with (u + (1440 * q) * 60) by lia.
  rewrite !Z.div_add by lia.
  replace (u / 3600 + 24 * q) with (u / 3600 + q * 24) by lia.
  replace (u / 60 + 1440 * q) with (u / 60 + (24 * q) * 60) by lia.
  now rewrite !Z_mod_plus_full.
Qed.

(** X16.  [formatTime] shows the time of day of its argument in whole
    seconds: two non-negative arguments whose whole seconds agree modulo
    one day (86400 s) give the same text, so hours wrap at 24 and
    fractions of a second are dropped. *)
Theorem formatTime_wraps_each_day (a b : JS.number) (ta tb : Z) :
  JSNum.lt a (JS.lit 0) = false ->
  JSNum.lt b (JS.lit 0) = false ->
  Date_new (JSNum.mul a (JS.lit 1000)) = Some ta ->
  Date_new (JSNum.mul b (JS.lit 1000)) = Some tb ->
  (ta / 1000) mod 86400 = (tb / 1000) mod 86400 ->
  formatTime a = formatTime b.
Proof.
  intros Ha Hb Hta Htb Heq.
  rewrite (formatTime_valid a ta Ha Hta), (formatTime_valid b tb Hb Htb).
  rewrite (clock_of_whole_seconds ta), (clock_of_whole_seconds tb).
  rewrite (Z.div_mod (ta / 1000) 86400), (Z.div_mod (tb / 1000) 86400) by lia.
  rewrite Heq.
  rewrite !(Z.add_comm (86400 * _)). now rewrite !clock_of_day.
Qed.

Lemma formatTime_wraps_each_day_witness :
  formatTime (JS.lit 90065) = formatTime (JS.lit 3665) /\
  formatTime (JS.lit 3665) = "1:01:05"%string.
Proof.
  split; [|reflexivity].
  apply (formatTime_wraps_each_day (JS.lit 90065) (JS.lit 3665) 90065000 3665000);
    reflexivity.
Defined.

(** X17.  The inputs [formatTime] cannot show: [NaN] and negative numbers
    give "0:00"; a number that makes no valid date (an infinite duration,
    as a live stream reports, or more than 8.64e12 seconds) gives
    "NaN:NaN". *)
Theorem formatTime_invalid_inputs (seconds : JS.number) :
  (JSNum.isNaN seconds = true \/ JSNum.lt seconds (JS.lit 0) = true ->
     formatTime seconds = "0:00"%string) /\
  (JSNum.isNaN seconds = false -> JSNum.lt seconds (JS.lit 0) = false ->
   Date_new (JSNum.mul seconds (JS.lit 1000)) = None ->
     formatTime seconds = "NaN:NaN"%string) /\
  formatTime (S754_infinity false) = "NaN:NaN"%string.
Proof.
  split; [|split; [|reflexivity]].
  - unfold formatTime. intros [H|H]; rewrite H; [reflexivity|].
    now rewrite orb_true_r.
  - intros Hnan Hneg Hdate. unfold formatTime. rewrite Hnan, Hneg, Hdate. reflexivity.
Qed.

Lemma formatTime_invalid_inputs_witness :
  formatTime (JS.lit (-1)) = "0:00"%string /\
  formatTime (JS.lit 10000000000000) = "NaN:NaN"%string.
Proof.
  split.
  - apply (proj1 (formatTime_invalid_inputs (JS.lit (-1)))). right. reflexivity.
  - apply (proj1 (proj2 (formatTime_invalid_inputs (JS.lit 10000000000000))));
      reflexivity.
Defined.

(** ** The speed button *)

Lemma nextSpeed_cycle :
  nextSpeed (JS.lit 1) = JSNum.dyadic 3 (-1) /\
  nextSpeed (JSNum.dyadic 3 (-1)) = JS.lit 2 /\
  nextSpeed (JS.lit 2) = JSNum.dyadic 1 (-1) /\
  nextSpeed (JSNum.dyadic 1 (-1)) = JS.lit 1.
Proof. vm_compute. repeat split. Qed.

Lemma nextSpeed_button x : button_speed x -> button_speed (nextSpeed x).
Proof.
  destruct nextSpeed_cycle as (H1 & H15 & H2 & H05).
  unfold button_speed. intros [-> | [-> | [-> | ->]]].
  - rewrite H05. tauto.
  - rewrite H1. tauto.
  - rewrite H15. tauto.
  - rewrite H2. tauto.
Qed.

Lemma nextSpeed_period x :
  button_speed x -> nextSpeed (nextSpeed (nextSpeed (nextSpeed x))) = x.
Proof.
  destruct nextSpeed_cycle as (H1 & H15 & H2 & H05).
  intros [-> | [-> | [-> | ->]]].
  - now rewrite H05, H1, H15, H2.
  - now rewrite H1, H15, H2, H05.
  - now rewrite H15, H2, H05, H1.
  - now rewrite H2, H05, H1, H15.
Qed.

Lemma pressSpeed_eq n s :
  pressSpeed n s = setPlaybackSpeedState (Nat.iter n nextSpeed (playbackSpeed s)) s \/
  (n = 0%nat /\ pressSpeed n s = s).
Proof.
  induction n as [|n IH]; [right; now split|]. left. simpl.
  destruct IH as [-> | [-> ->]]; reflexivity.
Qed.

Lemma iter_button n x : button_speed x -> button_speed (Nat.iter n nextSpeed x).
Proof.
  intros Hx. induction n as [|n IH]; simpl; [exact Hx|now apply nextSpeed_button].
Qed.

(** X18.  The speed button cycles 0.5, 1, 1.5, 2 and wraps: from a state
    whose speed is one of the four (the initial 1.0 is), any number of
    presses leaves a speed among the four, four more presses give the
    same state again, and nothing but [playbackSpeed] ever changes. *)
Theorem speed_button_cycles (n : nat) (s : AudioPlayerState) :
  button_speed (playbackSpeed s) ->
  button_speed (playbackSpeed (pressSpeed n s)) /\
  pressSpeed (4 + n) s = pressSpeed n s /\
  pressSpeed n s = setPlaybackSpeedState (playbackSpeed (pressSpeed n s)) s.
Proof.
  intros Hs.
  assert (Hspeed : forall k, playbackSpeed (pressSpeed k s)
                             = Nat.iter k nextSpeed (playbackSpeed s)).
  { intros k. destruct (pressSpeed_eq k s) as [-> | [-> ->]]; reflexivity. }
  assert (Hstate : forall k, pressSpeed k s
                             = setPlaybackSpeedState (playbackSpeed (pressSpeed k s)) s).
  { intros k. destruct (pressSpeed_eq k s) as [-> | [-> ->]]; [reflexivity|].
    simpl. now destruct s. }
  split; [|split].
  - rewrite Hspeed. now apply iter_button.
  - rewrite (Hstate (4 + n)%nat), (Hstate n), !Hspeed. f_equal.
    change (Nat.iter (4 + n) nextSpeed (playbackSpeed s))
      with (nextSpeed (nextSpeed (nextSpeed (nextSpeed
              (Nat.iter n nextSpeed (playbackSpeed s)))))).
    apply nextSpeed_period. now apply iter_button.
  - apply Hstate.
Qed.

Lemma speed_button_cycles_witness :
  playbackSpeed (pressSpeed 3 initialState) = JSNum.dyadic 1 (-1) /\
  pressSpeed 4 initialState = initialState.
Proof.
  split; [reflexivity|].
  apply (proj1 (proj2 (speed_button_cycles 0 initialState
                         (or_intror (or_introl eq_refl))))).
Defined.

(** ** Subscriptions *)

Lemma has_In x s : JSSet.has x s = true <-> In x s.
Proof.
  unfold JSSet.has. rewrite existsb_exists. split.
  - intros (y & Hy & Heq). apply String.eqb_eq in Heq. now subst.
  - intros H. exists x. split; [assumption|apply String.eqb_refl].
Qed.

Lemma has_false x s : JSSet.has x s = false <-> ~ In x s.
Proof.
  rewrite <- has_In. destruct (JSSet.has x s); split; intros; congruence.
Qed.

Lemma has_add x y s :
  JSSet.has y (JSSet.add x s) = (String.eqb y x || JSSet.has y s).
Proof.
  unfold JSSet.add. destruct (JSSet.has x s) eqn:Hx.
  - destruct (String.eqb_spec y x) as [->|]; [now rewrite Hx|reflexivity].
  - unfold JSSet.has. rewrite existsb_app. simpl.
    rewrite orb_false_r. apply orb_comm.
Qed.

Lemma has_delete x y s :
  JSSet.has y (JSSet.delete x s) = (negb (String.eqb y x) && JSSet.has y s).
Proof.
  apply Bool.eq_iff_eq_true. rewrite andb_true_iff, !has_In.
  unfold JSSet.delete. rewrite List.filter_In. tauto.
Qed.

Lemma add_NoDup x s : List.NoDup s -> List.NoDup (JSSet.add x s).
Proof.
  intros Hs. unfold JSSet.add. destruct (JSSet.has x s) eqn:Hx; [exact Hs|].
  apply has_false in Hx. apply NoDup_ListNoDup, NoDup_app.
  split; [now apply NoDup_ListNoDup|]. split.
  - intros y Hy Hy'. apply list_elem_of_singleton in Hy' as ->.
    apply Hx. now apply list_elem_of_In.
  - apply NoDup_singleton.
Qed.

Lemma delete_NoDup x s : List.NoDup s -> List.NoDup (JSSet.delete x s).
Proof. apply List.NoDup_filter. Qed.

Lemma from_acc l acc :
  List.NoDup acc ->
  List.NoDup (foldl (fun s x => JSSet.add x s) acc l) /\
  (forall y, JSSet.has y (foldl (fun s x => JSSet.add x s) acc l)
             = (JSSet.has y acc || JSSet.has y l)) /\
  (List.NoDup (acc ++ l) -> foldl (fun s x => JSSet.add x s) acc l = acc ++ l).
Proof.
  revert acc. induction l as [|x l IH]; intros acc Hacc; simpl.
  - split; [exact Hacc|]. split; [intros; now rewrite orb_false_r|].
    now rewrite app_nil_r.
  - destruct (IH (JSSet.add x acc) (add_NoDup x acc Hacc)) as (Hnd & Hhas & Heq).
    split; [exact Hnd|]. split.
    + intros y. rewrite Hhas, has_add. unfold JSSet.has at 4. simpl.
      fold (JSSet.has y l). destruct (String.eqb y x), (JSSet.has y acc); reflexivity.
    + intros Hall. assert (Hx : JSSet.has x acc = false).
      { apply has_false. intros Hin. apply List.NoDup_remove_2 in Hall.
        apply Hall. apply in_or_app. now left. }
      unfold JSSet.add in *. rewrite Hx in *.
      rewrite Heq; rewrite <- app_assoc; [reflexivity|exact Hall].
Qed.

Lemma from_spec l :
  List.NoDup (JSSet.from l) /\
  (forall y, JSSet.has y (JSSet.from l) = JSSet.has y l) /\
  (List.NoDup l -> JSSet.from l = l).
Proof.
  destruct (from_acc l [] (List.NoDup_nil _)) as (Hnd & Hhas & Heq).
  split; [exact Hnd|]. split; [exact Hhas|exact Heq].
Qed.

Lemma delete_add_fresh x s :
  JSSet.has x s = false -> JSSet.delete x (JSSet.add x s) = s.
Proof.
  intros Hx. unfold JSSet.add. rewrite Hx. unfold JSSet.delete.
  rewrite List.filter_app. simpl. rewrite String.eqb_refl. simpl.
  rewrite app_nil_r. apply has_false in Hx.
  induction s as [|z s IH]; simpl; [reflexivity|].
  destruct (String.eqb_spec z x) as [->|]; simpl.
  - exfalso. apply Hx. now left.
  - f_equal. apply IH. intros Hin. apply Hx. now right.
Qed.

(** X19.  For a signed-in user [toggleSubscription] flips the membership
    of the given show and of no other, keeps the set free of repeats, keeps
    the view, and hands exactly the new set to the storage service; a
    second toggle restores every membership, and the very set if the show
    was not subscribed at first.  Without a user, or for an anonymous one,
    the set stays, nothing is saved and the view becomes the login view. *)
Theorem toggleSubscription_flips_membership
    (user : User) (view : ViewType) (subs : list string) (podcastId : string) :
  isAnonymous user = false ->
  let once := toggleSubscription (Some user) view subs podcastId in
  let twice :=
    toggleSubscription (Some user) view (subscribedPodcastIds once) podcastId in
  JSSet.has podcastId (subscribedPodcastIds once) = negb (JSSet.has podcastId subs) /\
  (forall other, other <> podcastId ->
     JSSet.has other (subscribedPodcastIds once) = JSSet.has other subs) /\
  List.NoDup (subscribedPodcastIds once) /\
  activeView once = view /\
  savedSubscriptions once = Some (subscribedPodcastIds once) /\
  (forall any, JSSet.has any (subscribedPodcastIds twice) = JSSet.has any subs) /\
  (List.NoDup subs -> JSSet.has podcastId subs = false ->
     subscribedPodcastIds twice = subs) /\
  toggleSubscription None view subs podcastId =
    {| activeView := View_login; subscribedPodcastIds := subs;
       savedSubscriptions := None |}.
Proof.
  intros Hsigned once twice.
  assert (Honce : forall l,
            let r := toggleSubscription (Some user) view l podcastId in
            (forall y, JSSet.has y (subscribedPodcastIds r)
                       = if String.eqb y podcastId then negb (JSSet.has y l)
                         else JSSet.has y l) /\
            List.NoDup (subscribedPodcastIds r) /\
            activeView r = view /\
            savedSubscriptions r = Some (subscribedPodcastIds r)).
  { intros l. unfold toggleSubscription. rewrite Hsigned.
    destruct (from_spec l) as (Hnd & Hhas & _).
    destruct (JSSet.has podcastId (JSSet.from l)) eqn:Hin; simpl.
    - split; [|split; [now apply delete_NoDup|split; reflexivity]].
      intros y. rewrite has_delete, Hhas.
      destruct (String.eqb_spec y podcastId) as [->|]; simpl; [|reflexivity].
      rewrite Hhas in Hin. now rewrite Hin.
    - split; [|split; [now apply add_NoDup|split; reflexivity]].
      intros y. rewrite has_add, Hhas.
      destruct (String.eqb_spec y podcastId) as [->|]; simpl; [|reflexivity].
      rewrite Hhas in Hin. now rewrite Hin. }
  destruct (Honce subs) as (Hhas1 & Hnd1 & Hview1 & Hsaved1).
  destruct (Honce (subscribedPodcastIds once)) as (Hhas2 & _).
  fold once in Hhas1, Hnd1, Hview1, Hsaved1. fold twice in Hhas2.
  split; [|split; [|split; [|split; [|split; [|split; [|split]]]]]];
    try assumption; try reflexivity.
  - rewrite Hhas1. now rewrite String.eqb_refl.
  - intros other Hne. rewrite Hhas1. now rewrite (proj2 (String.eqb_neq _ _) Hne).
  - intros any. rewrite Hhas2, Hhas1.
    destruct (String.eqb any podcastId); [apply negb_involutive|reflexivity].
  - intros Hnd Habsent. unfold twice, once, toggleSubscription. rewrite Hsigned.
    destruct (from_spec subs) as (_ & _ & Hfrom). rewrite (Hfrom Hnd), Habsent. simpl.
    destruct (from_spec (JSSet.add podcastId subs)) as (_ & _ & Hfrom').
    rewrite (Hfrom' (add_NoDup podcastId subs Hnd)).
    rewrite has_add, String.eqb_refl. simpl.
    now apply delete_add_fresh.
Qed.

Lemma toggleSubscription_flips_membership_witness :
  subscribedPodcastIds (toggleSubscription (Some offlineUser) View_explore ["a"; "b"] "a")
    = ["b"%string] /\
  subscribedPodcastIds
    (toggleSubscription (Some offlineUser) View_explore
       (subscribedPodcastIds
          (toggleSubscription (Some offlineUser) View_explore ["a"; "b"] "c")) "c")
    = ["a"%string; "b"%string].
Proof.
  split; [reflexivity|].
  destruct (toggleSubscription_flips_membership offlineUser View_explore ["a"; "b"] "c"
              eq_refl)%string as (_ & _ & _ & _ & _ & _ & Hback & _).
  apply Hback; [|reflexivity].
  repeat constructor; simpl; intuition discriminate.
Defined.

(** ** Playing and queueing from a show *)

(** X20.  An episode queued from a show and then played from the same show
    is not queued twice: if its id was not in the queue, the queue after
    both steps is the old queue with the one entry appended, the pointer is
    on that entry, and the current episode is that very entry, show title
    and image included.  Queueing it again instead does add a second
    entry. *)
Theorem queued_then_played_from_show
    (podcast : Podcast.t) (episode : Episode) (s : AudioPlayerState) :
  (forall q, q ∈ queue s -> id q <> id episode) ->
  let s1 := handleAddToQueue podcast episode s in
  let s2 := handlePlayEpisode podcast episode s1 in
  queue s2 = queue s ++ [withMeta podcast episode] /\
  currentQueueIndex s2 = JS.len (queue s) /\
  currentEpisode s2 = Some (withMeta podcast episode) /\
  JS.get (queue s2) (currentQueueIndex s2) = currentEpisode s2 /\
  isPlaying s2 = true /\
  queue (handleAddToQueue podcast episode s1) =
    queue s ++ [withMeta podcast episode; withMeta podcast episode].
Proof.
  intros Hfresh s1 s2. unfold s2, handlePlayEpisode.
  destruct (playEpisode_present (withMeta podcast episode) s1)
    as (n & q & Hq & Hid & _ & ->).
  { exists (withMeta podcast episode). split; [|reflexivity].
    simpl. apply elem_of_app. right. apply list_elem_of_here. }
  simpl in Hq.
  assert (Hn : n = length (queue s)).
  { apply (playEpisode_at_length (withMeta podcast episode) s n q); assumption. }
  subst n. simpl.
  split; [reflexivity|]. split; [reflexivity|]. split; [reflexivity|].
  split; [|split; [reflexivity|]].
  - unfold JS.len. rewrite get_nat. now apply list_lookup_middle.
  - now rewrite <- app_assoc.
Qed.

Lemma queued_then_played_from_show_witness :
  queue (handlePlayEpisode mockPodcast episode3
           (handleAddToQueue mockPodcast episode3 playing_second))
    = [episode1; episode2; withMeta mockPodcast episode3] /\
  currentQueueIndex (handlePlayEpisode mockPodcast episode3
                       (handleAddToQueue mockPodcast episode3 playing_second)) = 2.
Proof.
  destruct (queued_then_played_from_show mockPodcast episode3 playing_second)
    as (Hq & Hi & _).
  - intros q Hq. simpl in Hq.
    apply elem_of_cons in Hq as [->|Hq]; [discriminate|].
    apply list_elem_of_singleton in Hq as ->. discriminate.
  - split; [exact Hq|exact Hi].
Defined.

(** ** Episodes from a feed *)

Lemma orElse_nonempty a b : b <> ""%string -> orElse a b <> ""%string.
Proof.
  intros Hb. unfold orElse. destruct a as [s|]; [|exact Hb].
  destruct (String.eqb_spec s ""); assumption.
Qed.

Lemma truthyString_Some a :
  truthyString a = true -> exists u, a = Some u /\ u <> ""%string.
Proof.
  destruct a as [u|]; simpl; [|discriminate].
  intros H. exists u. split; [reflexivity|].
  apply String.eqb_neq. now destruct (String.eqb u "").
Qed.

Lemma filter_imap_urls (g : nat -> FeedItem -> FeedEpisode) items :
  (forall k item, fe_audioUrl (g k item) = item_enclosure_url item) ->
  fe_audioUrl <$> List.filter (fun ep => truthyString (fe_audioUrl ep)) (imap g items)
  = List.filter truthyString (item_enclosure_url <$> items).
Proof.
  revert g. induction items as [|item items IH]; intros g Hg; [reflexivity|].
  simpl. rewrite Hg.
  destruct (truthyString (item_enclosure_url item)); simpl;
    rewrite ?Hg, IH; try reflexivity; intros; apply Hg.
Qed.

Lemma filter_imap_ids (g g' : nat -> FeedItem -> FeedEpisode) items :
  (forall k item, fe_audioUrl (g k item) = item_enclosure_url item) ->
  (forall k item, fe_audioUrl (g' k item) = item_enclosure_url item) ->
  (forall k k' item, truthyString (item_enclosure_url item) = true ->
     fe_id (g k item) = fe_id (g' k' item)) ->
  fe_id <$> List.filter (fun ep => truthyString (fe_audioUrl ep)) (imap g items)
  = fe_id <$> List.filter (fun ep => truthyString (fe_audioUrl ep)) (imap g' items).
Proof.
  revert g g'. induction items as [|item items IH]; intros g g' Hg Hg' Hid; [reflexivity|].
  simpl. rewrite Hg, Hg'.
  destruct (truthyString (item_enclosure_url item)) eqn:Hurl; simpl.
  - rewrite (Hid 0%nat 0%nat item Hurl). f_equal.
    apply IH; intros; [apply Hg|apply Hg'|now apply Hid].
  - apply IH; intros; [apply Hg|apply Hg'|now apply Hid].
Qed.

(** X21.  The episodes built from a feed: only items with a non-empty
    enclosure URL are kept, in feed order; every episode kept has that URL
    as its audio URL, a non-empty id and title, and a description without
    ["<"].  Its id is the item's guid, or the audio URL when the guid is
    missing or empty: the random fallback never reaches a kept episode, so
    the ids do not depend on it. *)
Theorem episodesOfItems_wellformed
    (Date_parse : string -> option Z) (Date_now : Z) (random : nat -> string)
    (items : list FeedItem) :
  Forall (fun ep =>
            (exists u, fe_audioUrl ep = Some u /\ u <> ""%string /\
                       (fe_id ep = u \/
                        exists item, item ∈ items /\ item_guid item = Some (fe_id ep))) /\
            fe_id ep <> ""%string /\
            fe_title ep <> ""%string /\
            occurs "<" (fe_description ep) = false)
         (episodesOfItems Date_parse Date_now random items) /\
  fe_audioUrl <$> episodesOfItems Date_parse Date_now random items
    = List.filter truthyString (item_enclosure_url <$> items) /\
  (forall random',
      fe_id <$> episodesOfItems Date_parse Date_now random items
      = fe_id <$> episodesOfItems Date_parse Date_now random' items).
Proof.
  split; [|split].
  - apply List.Forall_forall. intros ep Hep. unfold episodesOfItems in Hep.
    apply List.filter_In in Hep as [Hep Hurl].
    apply list_elem_of_In, list_elem_of_lookup in Hep as [k Hk].
    rewrite list_lookup_imap in Hk.
    destruct (items !! k) as [item|] eqn:Hitem; [|discriminate].
    injection Hk as <-. simpl in *.
    destruct (truthyString_Some _ Hurl) as (u & Hu & Hne).
    assert (Hin : item ∈ items) by (apply list_elem_of_lookup; eauto).
    split; [|split; [|split]].
    + exists u. split; [exact Hu|]. split; [exact Hne|].
      rewrite Hu. unfold orElse at 1.
      destruct (item_guid item) as [g|] eqn:Hg;
        [destruct (String.eqb g "") eqn:Hgb|].
      * left. simpl. apply String.eqb_neq in Hne. now rewrite Hne.
      * right. exists item. split; [exact Hin|].
        rewrite Hg. unfold orElse at 1. now rewrite Hgb.
      * left. simpl. apply String.eqb_neq in Hne. now rewrite Hne.
    + apply orElse_nonempty. rewrite Hu. simpl.
      apply String.eqb_neq in Hne. rewrite Hne. now apply String.eqb_neq.
    + now apply orElse_nonempty.
    + apply strip_no_open.
  - apply filter_imap_urls. reflexivity.
  - intros random'. apply filter_imap_ids; try reflexivity.
    intros k k' item Hurl. simpl.
    destruct (truthyString_Some _ Hurl) as (u & -> & Hne).
    simpl. apply String.eqb_neq in Hne. now rewrite Hne.
Qed.

Example test_episodesOfItems :
  episodesOfItems (fun _ => Some 1672531200000) 0 (fun _ => "0.5"%string)
    [ {| item_guid := Some "guid-1"%string;
         item_enclosure_url := Some "https://example.com/1.mp3"%string;
         item_title := Some "One"%string;
         item_description := Some "<p>First</p>"%string;
         item_pubDate := Some "Sun, 01 Jan 2023 00:00:00 GMT"%string |};
      {| item_guid := Some "guid-2"%string; item_enclosure_url := None;
         item_title := Some "No audio"%string; item_description := None;
         item_pubDate := None |};
      {| item_guid := None;
         item_enclosure_url := Some "https://example.com/3.mp3"%string;
         item_title := None; item_description := None; item_pubDate := None |} ]
  = [ {| fe_id := "guid-1"; fe_title := "One"; fe_description := "First";
         fe_pubDate := Some 1672531200000;
         fe_audioUrl := Some "https://example.com/1.mp3"%string |};
      {| fe_id := "https://example.com/3.mp3"; fe_title := "Untitled Episode";
         fe_description := "No description available.";
         fe_pubDate := Some 0;
         fe_audioUrl := Some "https://example.com/3.mp3"%string |} ].
Proof. reflexivity. Qed.

(** ** The shape of a formatted time *)

Lemma below_100 (P : nat -> bool) (z : Z) :
  forallb P (seq 0 100) = true -> 0 <= z < 100 -> P (Z.to_nat z) = true.
Proof.
  intros Hall Hz. rewrite forallb_forall in Hall. apply Hall.
  apply in_seq. lia.
Qed.

Lemma two_digits z :
  0 <= z < 100 -> String.length (JSNum.padStart0 2 (JSNum.toString (Some z))) = 2%nat.
Proof.
  intros Hz. apply Nat.eqb_eq.
  rewrite <- (Z2Nat.id z) by lia.
  apply (below_100 (fun n => String.length
                       (JSNum.padStart0 2 (JSNum.toString (Some (Z.of_nat n)))) =? 2)%nat);
    [vm_compute; reflexivity|assumption].
Qed.

Lemma digits z :
  0 <= z < 100 ->
  String.length (JSNum.toString (Some z)) = if z <? 10 then 1%nat else 2%nat.
Proof.
  intros Hz. apply Nat.eqb_eq.
  rewrite <- (Z2Nat.id z) by lia.
  apply (below_100 (fun n => String.length (JSNum.toString (Some (Z.of_nat n)))
                             =? (if (Z.of_nat n <? 10)%Z then 1 else 2))%nat);
    [vm_compute; reflexivity|assumption].
Qed.

(** X22.  For a non-negative number that makes a valid date, [formatTime]
    gives [m:ss] or [mm:ss] while the hour field is 0 and [h:mm:ss] or
    [hh:mm:ss] otherwise: seconds always take two digits, minutes take two
    once hours are shown, so the text has 4 or 5 units without hours and 7
    or 8 with. *)
Theorem formatTime_shape (seconds : JS.number) (t : Z) :
  JSNum.lt seconds (JS.lit 0) = false ->
  Date_new (JSNum.mul seconds (JS.lit 1000)) = Some t ->
  let '(hh, mm, ss) := clock_of t in
  String.length (formatTime seconds) =
    if hh =? 0 then (if mm <? 10 then 4%nat else 5%nat)
    else (if hh <? 10 then 7%nat else 8%nat).
Proof.
  intros Hneg Hdate. rewrite (formatTime_valid seconds t Hneg Hdate).
  unfold clock_of, clock_text.
  pose proof (Z.mod_pos_bound (t / 3600000) 24 ltac:(lia)) as Hh.
  pose proof (Z.mod_pos_bound (t / 60000) 60 ltac:(lia)) as Hm.
  pose proof (Z.mod_pos_bound (t / 1000) 60 ltac:(lia)) as Hs.
  destruct (Z.eqb_spec ((t / 3600000) mod 24) 0) as [Hz|Hnz]; simpl negb; cbv iota.
  - rewrite !length_append, two_digits, digits by lia.
    destruct (_ <? 10); reflexivity.
  - rewrite !length_append, !two_digits, digits by lia.
    destruct (_ <? 10); reflexivity.
Qed.

Lemma formatTime_shape_witness :
  String.length (formatTime (JS.lit 3665)) = 7%nat /\
  String.length (formatTime (JS.lit 65)) = 4%nat.
Proof.
  split.
  - apply (formatTime_shape (JS.lit 3665) 3665000); reflexivity.
  - apply (formatTime_shape (JS.lit 65) 65000); reflexivity.
Defined.

(** ** Playing through the queue *)

Lemma handleEnded_next held s :
  queue held = queue s ->
  currentQueueIndex held = currentQueueIndex s ->
  distinct_ids s ->
  -1 <= currentQueueIndex s < JS.len (queue s) - 1 ->
  exists e,
    JS.get (queue s) (currentQueueIndex s + 1) = Some e /\
    handleEnded held s =
    Some {| currentEpisode := Some e; isPlaying := true;
            playbackSpeed := playbackSpeed s; volume := volume s;
            currentTime := currentTime s; duration := duration s;
            queue := queue s; currentQueueIndex := currentQueueIndex s + 1 |}.
Proof.
  intros Hq Hi Hnd Hptr. rewrite (handleEnded_same_reads held s Hq Hi).
  unfold handleEnded.
  destruct (Z.ltb_spec (currentQueueIndex s) (JS.len (queue s) - 1)); [|lia].
  destruct (playNext_advances s (setIsPlaying false s) Hptr) as (e & He & ->).
  exists e. split; [exact He|].
  pose proof He as He'. apply get_Some in He' as [_ He'].
  rewrite (playEpisode_at_slot (setIsPlaying false s) _ e Hnd He').
  simpl. now rewrite Z2Nat.id by lia.
Qed.

Lemma handleEnded_stops held s :
  queue held = queue s ->
  currentQueueIndex held = currentQueueIndex s ->
  currentQueueIndex s = JS.len (queue s) - 1 ->
  handleEnded held s = Some (setIsPlaying false s) /\
  handleEnded_snapshot held (setIsPlaying false s) = held.
Proof.
  intros Hq Hi Hlast. split.
  - rewrite (handleEnded_same_reads held s Hq Hi). unfold handleEnded.
    destruct (Z.ltb_spec (currentQueueIndex s) (JS.len (queue s) - 1)); [lia|reflexivity].
  - unfold handleEnded_snapshot, handleEnded_deps. simpl. rewrite Hq, Hi.
    now rewrite !Z.eqb_refl.
Qed.

Lemma handleEnded_snapshot_moved held s :
  currentQueueIndex held <> currentQueueIndex s ->
  handleEnded_snapshot held s = s.
Proof.
  intros Hne. unfold handleEnded_snapshot, handleEnded_deps. simpl.
  now destruct (Z.eqb_spec (currentQueueIndex held) (currentQueueIndex s)).
Qed.

Lemma endedTimes_advances held s (k : nat) :
  queue held = queue s ->
  currentQueueIndex held = currentQueueIndex s ->
  distinct_ids s ->
  -1 <= currentQueueIndex s ->
  currentQueueIndex s + Z.of_nat k < JS.len (queue s) ->
  exists held' s',
    endedTimes k held s = Some (held', s') /\
    queue held' = queue s' /\
    currentQueueIndex held' = currentQueueIndex s' /\
    queue s' = queue s /\
    currentQueueIndex s' = currentQueueIndex s + Z.of_nat k /\
    ((0 < k)%nat ->
       isPlaying s' = true /\
       currentEpisode s' = JS.get (queue s) (currentQueueIndex s + Z.of_nat k)).
Proof.
  intros Hhq Hhi Hnd Hlow. induction k as [|k IH]; intros Hk.
  - exists held, s. simpl. split; [reflexivity|]. split; [exact Hhq|].
    split; [exact Hhi|]. split; [reflexivity|]. split; [lia|]. intros; lia.
  - destruct IH as (held' & s' & Hrun & Hhq' & Hhi' & Hq & Hi & _); [lia|].
    destruct (handleEnded_next held' s' Hhq' Hhi') as (e & He & Hended).
    { unfold distinct_ids. now rewrite Hq. }
    { rewrite Hq, Hi. lia. }
    eexists. eexists. simpl. rewrite Hrun, Hended.
    rewrite handleEnded_snapshot_moved by (simpl; lia).
    split; [reflexivity|]. simpl.
    split; [reflexivity|]. split; [reflexivity|].
    split; [exact Hq|]. split; [lia|]. intros _. split; [reflexivity|].
    rewrite Hq, Hi in He. rewrite <- He. f_equal. lia.
Qed.

(** X23.  Left alone, a queue with distinct ids plays through and stops,
    provided the [handleEnded] in use at the start closed over the current
    queue and pointer (as the handler of the render of the current state
    did).  From a pointer on a slot, [k] ends of media move the pointer [k]
    slots on, playing the entry there, as long as the queue reaches that
    far; every one of these renders replaces the handler, which goes on
    showing the current queue.  The end of the last entry leaves the
    pointer on it with [isPlaying] false and keeps the handler, and every
    further end of media changes nothing more. *)
Theorem queue_plays_through (held s : AudioPlayerState) :
  queue held = queue s ->
  currentQueueIndex held = currentQueueIndex s ->
  distinct_ids s ->
  0 <= currentQueueIndex s < JS.len (queue s) ->
  (forall k : nat,
      currentQueueIndex s + Z.of_nat k < JS.len (queue s) ->
      exists held' s',
        endedTimes k held s = Some (held', s') /\
        queue held' = queue s' /\
        currentQueueIndex held' = currentQueueIndex s' /\
        queue s' = queue s /\
        currentQueueIndex s' = currentQueueIndex s + Z.of_nat k /\
        ((0 < k)%nat ->
           isPlaying s' = true /\
           currentEpisode s' = JS.get (queue s) (currentQueueIndex s + Z.of_nat k))) /\
  (exists held' last,
      endedTimes (Z.to_nat (JS.len (queue s) - currentQueueIndex s)) held s
        = Some (held', last) /\
      queue last = queue s /\
      currentQueueIndex last = JS.len (queue s) - 1 /\
      isPlaying last = false /\
      endedTimes 1 held' last = Some (held', last)).
Proof.
  intros Hhq Hhi Hnd Hptr. split.
  - intros k Hk. apply endedTimes_advances; [assumption|assumption|assumption|lia|assumption].
  - destruct (endedTimes_advances held s
                (Z.to_nat (JS.len (queue s) - 1 - currentQueueIndex s)))
      as (held' & s' & Hrun & Hhq' & Hhi' & Hq & Hi & _);
      [assumption|assumption|assumption|lia|lia|].
    replace (Z.to_nat (JS.len (queue s) - currentQueueIndex s))
      with (S (Z.to_nat (JS.len (queue s) - 1 - currentQueueIndex s))) by lia.
    assert (Hlast : currentQueueIndex s' = JS.len (queue s') - 1) by (rewrite Hq; lia).
    destruct (handleEnded_stops held' s' Hhq' Hhi' Hlast) as [Hstop Hkeep].
    destruct (handleEnded_stops held' (setIsPlaying false s') Hhq' Hhi' Hlast)
      as [Hstop' Hkeep'].
    exists held', (setIsPlaying false s'). simpl. rewrite Hrun, Hstop, Hkeep.
    split; [reflexivity|]. split; [exact Hq|].
    split; [rewrite Hq in Hlast; exact Hlast|]. split; [reflexivity|].
    simpl in Hstop', Hkeep'. now rewrite Hstop', Hkeep'.
Qed.

Lemma queue_plays_through_witness :
  exists held' s',
    endedTimes 2 three_queued three_queued = Some (held', s') /\
    currentQueueIndex s' = 2 /\ currentEpisode s' = Some episode3.
Proof.
  assert (Hnd : distinct_ids three_queued).
  { unfold distinct_ids. apply (bool_decide_unpack _). vm_compute. exact I. }
  destruct (proj1 (queue_plays_through three_queued three_queued eq_refl eq_refl Hnd
                     ltac:(vm_compute; split; [discriminate|reflexivity])) 2%nat)
    as (held' & s' & Hrun & _ & _ & _ & Hi & Hplay).
  - reflexivity.
  - exists held', s'. split; [exact Hrun|]. split; [exact Hi|].
    apply Hplay. lia.
Defined.

(** ** The two variants of [playNext] and [playPrevious] *)

(** X24.  The inline variant of [app.tsx] and the hook agree on
    [playNext] and [playPrevious] as long as the ids of the queue are
    distinct and the pointer is -1 or on a slot.  With a repeated id they
    part: on [[episode1; episode2; episode1']] with [episode2] playing, the
    inline [playNext] moves the pointer to slot 2, the hook's to slot 0. *)
Theorem variants_agree_on_distinct_ids (s : AudioPlayerState) :
  (distinct_ids s -> -1 <= currentQueueIndex s < JS.len (queue s) ->
     legacy_playNext s = playNext s s /\ legacy_playPrevious s = playPrevious s s) /\
  (currentQueueIndex <$> legacy_playNext repeated_id = Some 2 /\
   currentQueueIndex <$> playNext repeated_id repeated_id = Some 0).
Proof.
  split; [|split; reflexivity].
  intros Hnd Hptr. split.
  - unfold legacy_playNext, playNext.
    destruct (Z.ltb_spec (currentQueueIndex s) (JS.len (queue s) - 1)); [|reflexivity].
    destruct (JS.get (queue s) (currentQueueIndex s + 1)) as [e|] eqn:He; [|reflexivity].
    pose proof He as He'. apply get_Some in He' as [_ He'].
    rewrite (playEpisode_at_slot s _ e Hnd He'). now rewrite Z2Nat.id by lia.
  - unfold legacy_playPrevious, playPrevious.
    destruct (Z.gtb_spec (currentQueueIndex s) 0); [|reflexivity].
    destruct (JS.get (queue s) (currentQueueIndex s - 1)) as [e|] eqn:He; [|reflexivity].
    pose proof He as He'. apply get_Some in He' as [_ He'].
    rewrite (playEpisode_at_slot s _ e Hnd He'). now rewrite Z2Nat.id by lia.
Qed.

Lemma variants_agree_on_distinct_ids_witness :
  legacy_playNext three_queued = playNext three_queued three_queued.
Proof.
  apply (proj1 (variants_agree_on_distinct_ids three_queued)).
  - unfold distinct_ids. apply (bool_decide_unpack _). vm_compute. exact I.
  - vm_compute. split; [discriminate|reflexivity].
Defined.
